(** * jStat core: special functions and discrete distributions

    A shallow embedding of [src/core.js] (factorial, gamma, combination,
    permutation, the pmf/cdf catalogue, [sumFunc] and the descriptive
    statistics on arrays) together with the properties stated about them.

    Number model.  A JavaScript number is modelled as an extended real:
    a finite value carrying a real of [Stdlib.Reals], the two infinities,
    and not-a-number.  The special values follow the IEEE 754 / ECMAScript
    rules for every operator the source uses.  Finite arithmetic is exact:
    rounding, overflow and underflow of binary64 are not modelled, and the
    two signed zeros are identified (a division by a finite zero takes the
    sign of the dividend).  Every statement below is a statement about this
    exact-arithmetic reading of the code.

    Loops.  Each [for]/[while] of the source is an instance of one fuelled
    [while] combinator; a result [None] means that the fuel ran out.  A call
    "returns [v]" when every large enough fuel yields [Some v]. *)

From Stdlib Require Import Reals Lra Lia List Bool ZArith.
From Stdlib Require Import Sorting.Permutation Sorting.Sorted.
Import ListNotations.

Open Scope R_scope.

(** ** JavaScript numbers *)

Inductive num : Type :=
| NaN
| PInf
| NInf
| Fin (r : R).

Declare Scope num_scope.
Delimit Scope num_scope with num.
Bind Scope num_scope with num.

Definition Rltb (a b : R) : bool := if Rlt_dec a b then true else false.
Definition Reqb (a b : R) : bool := if Req_dec_T a b then true else false.

(** [x < y] *)
Definition num_lt (x y : num) : bool :=
  match x, y with
  | NaN, _ | _, NaN => false
  | Fin a, Fin b => Rltb a b
  | NInf, NInf => false
  | NInf, _ => true
  | PInf, _ => false
  | Fin _, PInf => true
  | Fin _, NInf => false
  end.

(** [x == y] on numbers *)
Definition num_eq (x y : num) : bool :=
  match x, y with
  | NaN, _ | _, NaN => false
  | Fin a, Fin b => Reqb a b
  | PInf, PInf => true
  | NInf, NInf => true
  | _, _ => false
  end.

(** [x != y], [x <= y], [x > y] *)
Definition num_ne (x y : num) : bool := negb (num_eq x y).
Definition num_le (x y : num) : bool := num_lt x y || num_eq x y.
Definition num_gt (x y : num) : bool := num_lt y x.

Definition num_neg (x : num) : num :=
  match x with
  | NaN => NaN
  | PInf => NInf
  | NInf => PInf
  | Fin a => Fin (- a)
  end.

Definition num_add (x y : num) : num :=
  match x, y with
  | NaN, _ | _, NaN => NaN
  | PInf, NInf | NInf, PInf => NaN
  | PInf, _ | _, PInf => PInf
  | NInf, _ | _, NInf => NInf
  | Fin a, Fin b => Fin (a + b)
  end.

Definition num_sub (x y : num) : num := num_add x (num_neg y).

(** An infinity of the sign of [s * r]; not-a-number when [r] is zero. *)
Definition inf_times (s : bool) (r : R) : num :=
  if Reqb r 0 then NaN
  else if xorb s (Rltb r 0) then NInf else PInf.

Definition num_mul (x y : num) : num :=
  match x, y with
  | NaN, _ | _, NaN => NaN
  | PInf, PInf | NInf, NInf => PInf
  | PInf, NInf | NInf, PInf => NInf
  | PInf, Fin r | Fin r, PInf => inf_times false r
  | NInf, Fin r | Fin r, NInf => inf_times true r
  | Fin a, Fin b => Fin (a * b)
  end.

Definition num_div (x y : num) : num :=
  match x, y with
  | NaN, _ | _, NaN => NaN
  | (PInf | NInf), (PInf | NInf) => NaN
  | PInf, Fin r => if Rltb r 0 then NInf else PInf
  | NInf, Fin r => if Rltb r 0 then PInf else NInf
  | Fin _, (PInf | NInf) => Fin 0
  | Fin a, Fin b =>
      if Reqb b 0 then inf_times false a else Fin (a / b)
  end.

Notation "x + y" := (num_add x y) : num_scope.
Notation "x - y" := (num_sub x y) : num_scope.
Notation "x * y" := (num_mul x y) : num_scope.
Notation "x / y" := (num_div x y) : num_scope.
Notation "- x" := (num_neg x) : num_scope.
Notation "x <? y" := (num_lt x y) (at level 70) : num_scope.
Notation "x <=? y" := (num_le x y) (at level 70) : num_scope.
Notation "x >? y" := (num_gt x y) (at level 70) : num_scope.
Notation "x ==? y" := (num_eq x y) (at level 70) : num_scope.
Notation "x !=? y" := (num_ne x y) (at level 70) : num_scope.
Notation "# r" := (Fin r%R) (at level 5, r at level 9, format "# r") : num_scope.

(** ** The [Math] built-ins the source calls *)

Module Math.

Definition floor (x : num) : num :=
  match x with
  | Fin r => Fin (IZR (Int_part r))
  | _ => x
  end.

Definition exp (x : num) : num :=
  match x with
  | NaN => NaN
  | PInf => PInf
  | NInf => Fin 0
  | Fin r => Fin (Rtrigo_def.exp r)
  end.

Definition log (x : num) : num :=
  match x with
  | NaN | NInf => NaN
  | PInf => PInf
  | Fin r => if Rltb r 0 then NaN else if Reqb r 0 then NInf else Fin (ln r)
  end.

Definition PI : num := Fin Rtrigo1.PI.

Definition is_integer (r : R) : bool := Reqb r (IZR (Int_part r)).
Definition is_odd_integer (x : num) : bool :=
  match x with
  | Fin r => is_integer r && Z.odd (Int_part r)
  | _ => false
  end.

(** [Math.pow(base, exponent)], following the case list of the language
    standard; on finite non-zero arguments the result is the exact power. *)
Definition pow (base exponent : num) : num :=
  match exponent, base with
  | NaN, _ => NaN
  | Fin e, _ =>
      if Reqb e 0 then Fin 1 else
      match base with
      | NaN => NaN
      | PInf => if Rltb 0 e then PInf else Fin 0
      | NInf =>
          if Rltb 0 e
          then (if is_odd_integer exponent then NInf else PInf)
          else Fin 0
      | Fin b =>
          if Reqb b 0 then (if Rltb 0 e then Fin 0 else PInf)
          else if is_integer e then Fin (powerRZ b (Int_part e))
          else if Rltb b 0 then NaN
          else Fin (Rpower b e)
      end
  | PInf, NaN => NaN
  | PInf, (PInf | NInf) => PInf
  | PInf, Fin b =>
      if Rltb 1 (Rabs b) then PInf
      else if Reqb (Rabs b) 1 then NaN else Fin 0
  | NInf, NaN => NaN
  | NInf, (PInf | NInf) => Fin 0
  | NInf, Fin b =>
      if Rltb 1 (Rabs b) then Fin 0
      else if Reqb (Rabs b) 1 then NaN else PInf
  end.

(** [Math.sqrt], [Math.abs] and [Math.round] (ties go up). *)
Definition sqrt (x : num) : num :=
  match x with
  | NaN | NInf => NaN
  | PInf => PInf
  | Fin r => if Rltb r 0 then NaN else Fin (R_sqrt.sqrt r)
  end.


Definition round (x : num) : num :=
  match x with
  | Fin r => Fin (IZR (Int_part (r + 0.5)))
  | _ => x
  end.

(** [Math.min.apply(null, arr)] and [Math.max.apply(null, arr)]: the
    running extremum starts at the opposite infinity and not-a-number
    absorbs. *)
Definition min2 (lowest x : num) : num :=
  match lowest, x with
  | NaN, _ | _, NaN => NaN
  | _, _ => if num_lt x lowest then x else lowest
  end.

Definition max2 (highest x : num) : num :=
  match highest, x with
  | NaN, _ | _, NaN => NaN
  | _, _ => if num_lt highest x then x else highest
  end.

Definition min (args : list num) : num := fold_left min2 args PInf.
Definition max (args : list num) : num := fold_left max2 args NInf.

End Math.

(** ** JavaScript values and arrays *)

(** The values the modelled functions produce or store: numbers, the
    boolean that [negbin] and [hypgeom] use as a rejection signal, and
    [undefined] (the content of an array slot that was never written). *)
Inductive value : Type :=
| VUndef
| VBool (b : bool)
| VNum (x : num).

(** The conversion applied by [sum += e]. *)
Definition to_number (v : value) : num :=
  match v with
  | VUndef => NaN
  | VBool true => Fin 1
  | VBool false => Fin 0
  | VNum x => x
  end.

Definition num_eq_dec (x y : num) : {x = y} + {x <> y}.
Proof.
  destruct x, y; try (left; reflexivity); try (right; discriminate).
  destruct (Req_dec_T r r0) as [->|Hne]; [left; reflexivity|].
  right; intros [= H]; exact (Hne H).
Defined.

(** An array is a finite map from index to stored value; the latest write
    to an index shadows earlier ones.  Indices are numbers, as in the source,
    where the loop counter itself is the subscript. *)
Definition array : Type := list (num * value).

Definition arr_set (a : array) (i : num) (v : value) : array := (i, v) :: a.

Fixpoint arr_get (a : array) (i : num) : value :=
  match a with
  | [] => VUndef
  | (j, v) :: a' => if num_eq_dec i j then v else arr_get a' i
  end.

(** A dense array of numbers (an array literal, or a sorted copy of one)
    is a list; a subscript that is not the index of an element reads
    [undefined]. *)
Definition get_nat (a : list num) (i : nat) : value :=
  match nth_error a i with
  | Some x => VNum x
  | None => VUndef
  end.

Definition get (a : list num) (i : num) : value :=
  match i with
  | Fin r =>
      if Math.is_integer r && negb (Rltb r 0)
      then get_nat a (Z.to_nat (Int_part r))
      else VUndef
  | _ => VUndef
  end.

(** [a === b] *)
Definition strict_eq (a b : value) : bool :=
  match a, b with
  | VNum x, VNum y => num_eq x y
  | VBool p, VBool q => Bool.eqb p q
  | VUndef, VUndef => true
  | _, _ => false
  end.

(** [Array.prototype.sort] with a comparison function: an insertion sort
    that moves [x] past [y] exactly when [cmp x y > 0].  On numbers that
    the comparison orders totally every conforming sort gives this
    result. *)
Fixpoint insert (cmp : num -> num -> num) (x : num) (l : list num)
  : list num :=
  match l with
  | [] => [x]
  | y :: l' => if num_gt (cmp x y) (Fin 0) then y :: insert cmp x l'
               else x :: l
  end.

Definition sort (cmp : num -> num -> num) (l : list num) : list num :=
  fold_right (insert cmp) [] l.

(** [for (i = n - 1; i >= 0; i--) acc += term(i)], also the shape of
    [i = n; while (--i >= 0) acc += term(i)]. *)
Fixpoint accumulate_down (term : nat -> num) (n : nat) (acc : num) : num :=
  match n with
  | O => acc
  | S i => accumulate_down term i (num_add acc (term i))
  end.

(** ** Partial computations and loops *)

Definition bind {A B : Type} (m : option A) (k : A -> option B) : option B :=
  match m with
  | Some a => k a
  | None => None
  end.

Notation "x <- m ;; k" := (bind m (fun x => k))
  (at level 61, m at next level, right associativity).
Notation "' p <- m ;; k" := (bind m (fun p => k))
  (at level 61, p pattern, m at next level, right associativity).

(** [while fuel cond body s] runs [while (cond) { body }] from state [s]. *)
Fixpoint while {S : Type} (fuel : nat) (cond : S -> bool)
    (body : S -> option S) (s : S) : option S :=
  match fuel with
  | O => None
  | S fuel' =>
      if cond s then s' <- body s ;; while fuel' cond body s'
      else Some s
  end.

(** A fuelled call returns [v]: all sufficiently large fuels give [Some v]. *)
Definition returns {A : Type} (f : nat -> option A) (v : A) : Prop :=
  exists fuel0 : nat, forall fuel : nat, (fuel0 <= fuel)%nat -> f fuel = Some v.

(** More fuel never changes a result already obtained. *)
Definition fuel_mono {A : Type} (f : nat -> option A) : Prop :=
  forall (n m : nat) (v : A), (n <= m)%nat -> f n = Some v -> f m = Some v.

(** ** The library *)

Module jstat.

#[local] Open Scope num_scope.

(** [factorial] and [gamma] call each other ([core.js], lines 199-207 and
    238-248).  Each body is written against the function it calls; the two
    are then tied together by recursion on the fuel. *)

(** The body of [factorial], given the [gamma] it calls. *)
Definition factorial_body (gamma : num -> option num) (fuel : nat) (n : num)
  : option num :=
  let fval := #1 in
  if n <? #0 then Some NaN
  else if n !=? Math.floor n then gamma (n + #1)
  else
    '(n, fval) <- while fuel (fun '(n, fval) => n >? #0)
                    (fun '(n, fval) => Some (n - #1, fval * n)) (n, fval) ;;
    Some fval.

(** The asymptotic series of [gamma], after the argument shift. *)
Definition gamma_series (x v : num) : num :=
  let w := #1 / (x * x) in
  Math.exp ((((((((- #3617 / #122400 * w + #7 / #1092) * w - #691 / #360360) * w
                 + #5 / #5940) * w - #1 / #1680) * w + #1 / #1260) * w
              - #1 / #360) * w + #1 / #12) / x
            + #0.5 * Math.log (#2 * Math.PI) - Math.log v - x
            + (x - #0.5) * Math.log x).

(** The body of [gamma], given the [factorial] it calls. *)
Definition gamma_body (factorial : num -> option num) (fuel : nat) (x : num)
  : option num :=
  let v := #1 in
  if x ==? Math.floor x then factorial (x - #1)
  else
    '(x, v) <- while fuel (fun '(x, v) => x <? #8)
                 (fun '(x, v) => Some (x + #1, v * x)) (x, v) ;;
    Some (gamma_series x v).

Fixpoint factorial (fuel : nat) (n : num) {struct fuel} : option num :=
  match fuel with
  | O => None
  | S fuel' => factorial_body (gamma fuel') fuel n
  end
with gamma (fuel : nat) (x : num) {struct fuel} : option num :=
  match fuel with
  | O => None
  | S fuel' => gamma_body (factorial fuel') fuel x
  end.

(** [core.js], lines 217-219. *)
Definition combination (fuel : nat) (n k : num) : option num :=
  fn <- factorial fuel n ;;
  fk <- factorial fuel k ;;
  fnk <- factorial fuel (n - k) ;;
  Some ((fn / fk) / fnk).

(** [core.js], lines 227-229. *)
Definition permutation (fuel : nat) (n r : num) : option num :=
  fn <- factorial fuel n ;;
  fnr <- factorial fuel (n - r) ;;
  Some (fn / fnr).

(** [core.js], lines 304-311. *)
Definition uniformcdf (a b x : num) : num :=
  if x <? a then #0
  else if x <? b then (x - a) / (b - a)
  else #1.

(** [core.js], lines 322-324. *)
Definition binomial (fuel : nat) (n p k : num) : option value :=
  c <- combination fuel n k ;;
  Some (VNum (c * Math.pow p k * Math.pow (#1 - p) (n - k))).

(** [core.js], lines 335-353: the array [binomarr] is filled with the pmf
    at [k = 0, 1, ...] while [k < n], then its first slots are added up. *)
Definition binomialcdf (fuel : nat) (n p x : num) : option num :=
  let binomarr : array := [] in
  let k := #0 in
  let i := #0 in
  let sum := #0 in
  if x <? #0 then Some #0
  else
    '(k, binomarr) <-
        while fuel (fun '(k, binomarr) => k <? n)
          (fun '(k, binomarr) =>
             b <- binomial fuel n p k ;;
             Some (k + #1, arr_set binomarr k b)) (k, binomarr) ;;
    if x <? n then
      '(i, sum) <-
          while fuel (fun '(i, sum) => i <=? x)
            (fun '(i, sum) =>
               Some (i + #1, sum + to_number (arr_get binomarr i))) (i, sum) ;;
      Some sum
    else Some #1.

(** [core.js], lines 364-372. *)
Definition negbin (fuel : nat) (r p x : num) : option value :=
  if x !=? Math.floor x then Some (VBool false)
  else if x <? #0 then Some (VNum #0)
  else
    c <- combination fuel (x + r - #1) (r - #1) ;;
    Some (VNum (c * Math.pow p r * Math.pow (#1 - p) x)).

(** [core.js], lines 383-393. *)
Definition negbincdf (fuel : nat) (n p x : num) : option num :=
  let sum := #0 in
  let k := #0 in
  if x <? #0 then Some #0
  else
    '(k, sum) <-
        while fuel (fun '(k, sum) => k <=? x)
          (fun '(k, sum) =>
             y <- negbin fuel n p k ;;
             Some (k + #1, sum + to_number y)) (k, sum) ;;
    Some sum.

(** [core.js], lines 405-407. *)
Definition hypgeom (fuel : nat) (N m n x : num) : option value :=
  if x !=? Math.floor x then Some (VBool false)
  else if x <? #0 then Some (VNum #0)
  else
    c1 <- combination fuel m x ;;
    c2 <- combination fuel (N - m) (n - x) ;;
    c3 <- combination fuel N n ;;
    Some (VNum (c1 * c2 / c3)).

(** [core.js], lines 419-429. *)
Definition hypgeomcdf (fuel : nat) (N m n x : num) : option num :=
  let sum := #0 in
  let k := #0 in
  if x <? #0 then Some #0
  else
    '(k, sum) <-
        while fuel (fun '(k, sum) => k <=? x)
          (fun '(k, sum) =>
             y <- hypgeom fuel N m n k ;;
             Some (k + #1, sum + to_number y)) (k, sum) ;;
    Some sum.

(** [core.js], lines 439-441. *)
Definition exponentialcdf (l x : num) : num :=
  #1 - Math.exp (- x).

(** [core.js], lines 451-453. *)
Definition poisson (fuel : nat) (l x : num) : option value :=
  f <- factorial fuel x ;;
  Some (VNum (Math.pow l x * Math.exp (- l) / f)).

(** [core.js], lines 463-473. *)
Definition poissoncdf (fuel : nat) (l x : num) : option num :=
  let sum := #0 in
  let k := #0 in
  if x <? #0 then Some #0
  else
    '(k, sum) <-
        while fuel (fun '(k, sum) => k <=? x)
          (fun '(k, sum) =>
             y <- poisson fuel l k ;;
             Some (k + #1, sum + to_number y)) (k, sum) ;;
    Some sum.

(** [core.js], lines 484-491. *)
Definition sumFunc (fuel : nat) (func : num -> option value) (a b : num)
  : option num :=
  let sum := #0 in
  '(a, sum) <-
      while fuel (fun '(a, sum) => a <=? b)
        (fun '(a, sum) =>
           y <- func a ;;
           Some (a + #1, sum + to_number y)) (a, sum) ;;
  Some sum.

(** *** Descriptive statistics *)

(** [core.js], line 495. *)
Definition arrSortF (a b : num) : num := a - b.

(** [core.js], lines 22-29. *)
Definition sum (arr : list num) : num :=
  accumulate_down (fun i => to_number (get_nat arr i)) (length arr) #0.

(** [core.js], lines 38-40 and 49-51. *)
Definition min (arr : list num) : num := Math.min arr.
Definition max (arr : list num) : num := Math.max arr.

(** [core.js], lines 60-62. *)
Definition mean (arr : list num) : num :=
  sum arr / #(INR (length arr)).


(** [core.js], lines 86-116. *)
Record mode_state : Type := {
  count : nat;
  maxCount : nat;
  numMaxCount : nat;
  maxNum : value
}.

Definition mode_step (_arr : list num) (i : nat) (st : mode_state)
  : mode_state :=
  if strict_eq (get_nat _arr i) (get_nat _arr (S i))
  then {| count := S (count st); maxCount := maxCount st;
          numMaxCount := numMaxCount st; maxNum := maxNum st |}
  else if (maxCount st <? count st)%nat
  then {| count := 1; maxCount := count st;
          numMaxCount := 0; maxNum := get_nat _arr i |}
  else if (count st =? maxCount st)%nat
  then {| count := count st; maxCount := maxCount st;
          numMaxCount := S (numMaxCount st); maxNum := maxNum st |}
  else {| count := 1; maxCount := maxCount st;
          numMaxCount := numMaxCount st; maxNum := maxNum st |}.

Fixpoint mode_loop (_arr : list num) (steps i : nat) (st : mode_state)
  : mode_state :=
  match steps with
  | O => st
  | S steps' => mode_loop _arr steps' (S i) (mode_step _arr i st)
  end.

Definition mode (arr : list num) : value :=
  let arrLen := length arr in
  let _arr := sort arrSortF arr in
  let st := mode_loop _arr arrLen 0
              {| count := 1; maxCount := 0; numMaxCount := 0;
                 maxNum := VUndef |} in
  if (numMaxCount st =? 0)%nat then maxNum st else VBool false.

(** [core.js], lines 125-128. *)
Definition range (arr : list num) : num :=
  let _arr := sort arrSortF arr in
  to_number (get _arr (#(INR (length _arr)) - #1)) - to_number (get _arr #0).

(** [core.js], lines 137-145. *)
Definition variance (arr : list num) : num :=
  let mean := mean arr in
  let stSum :=
    accumulate_down
      (fun i => Math.pow (to_number (get_nat arr i) - mean) #2)
      (length arr) #0 in
  stSum / (#(INR (length arr)) - #1).

(** [core.js], lines 154-156. *)
Definition stdev (arr : list num) : num := Math.sqrt (variance arr).



(** [core.js], lines 257-261. *)
Definition quartiles (arr : list num) : list value :=
  let arrlen := #(INR (length arr)) in
  let _arr := sort arrSortF arr in
  [get _arr (Math.round (arrlen / #4) - #1);
   get _arr (Math.round (arrlen / #2) - #1);
   get _arr (Math.round (arrlen * #3 / #4) - #1)].



End jstat.

(** ** The loops of the library, named *)

(** The loop of [sumFunc], which the cumulative functions repeat. *)
Definition sum_loop (steps : nat) (f : num -> option value) (b : num)
    (s : num * num) : option (num * num) :=
  while steps (fun '(k, sum) => num_le k b)
    (fun '(k, sum) =>
       y <- f k ;; Some (num_add k (Fin 1), num_add sum (to_number y))) s.

(** [g 0 + g 1 + ... + g m], added from the left starting at [0]. *)
Definition sum_upto (g : nat -> num) (m : nat) : num :=
  fold_left (fun a i => num_add a (g i)) (seq 0 (S m)) (Fin 0).

(** The loop that fills [binomarr]. *)
Definition fill_loop (steps : nat) (f : num -> option value) (n : num)
    (s : num * array) : option (num * array) :=
  while steps (fun '(k, binomarr) => num_lt k n)
    (fun '(k, binomarr) =>
       b <- f k ;; Some (num_add k (Fin 1), arr_set binomarr k b)) s.


(** ** Lists of reals, for the statements *)

Definition Rsum (l : list R) : R := fold_right Rplus 0 l.

Fixpoint Rinsert (x : R) (l : list R) : list R :=
  match l with
  | [] => [x]
  | y :: l' => if Rlt_dec y x then y :: Rinsert x l' else x :: l
  end.

Definition Rsort (l : list R) : list R := fold_right Rinsert [] l.

(** ** Counting, for the statements *)

(** Binomial coefficients on the naturals, by Pascal's rule; zero out of
    range. *)
Fixpoint choose (n k : nat) {struct n} : nat :=
  match k with
  | O => 1
  | S k' =>
      match n with
      | O => 0
      | S n' => choose n' k' + choose n' (S k')
      end
  end.

(** [f 0 + f 1 + ... + f n] on the naturals. *)
Fixpoint nsum (f : nat -> nat) (n : nat) : nat :=
  match n with
  | O => f 0%nat
  | S n' => nsum f n' + f n
  end.

(** * Properties *)

(** ** Deciding comparisons of finite numbers *)

Lemma Rltb_true (a b : R) : a < b -> Rltb a b = true.
Proof. unfold Rltb; destruct (Rlt_dec a b); tauto. Qed.

Lemma Rltb_false (a b : R) : b <= a -> Rltb a b = false.
Proof. unfold Rltb; destruct (Rlt_dec a b); [lra | reflexivity]. Qed.

Lemma Rltb_spec (a b : R) : Rltb a b = true <-> a < b.
Proof. unfold Rltb; destruct (Rlt_dec a b); split; (discriminate || tauto). Qed.

Lemma Reqb_true (a b : R) : a = b -> Reqb a b = true.
Proof. unfold Reqb; destruct (Req_dec_T a b); tauto. Qed.

Lemma Reqb_false (a b : R) : a <> b -> Reqb a b = false.
Proof. unfold Reqb; destruct (Req_dec_T a b); tauto. Qed.

Lemma Reqb_spec (a b : R) : Reqb a b = true <-> a = b.
Proof. unfold Reqb; destruct (Req_dec_T a b); split; (discriminate || tauto). Qed.

(** Settles every [Rltb]/[Reqb] test of the goal that linear arithmetic
    decides from the context. *)
Ltac rtest :=
  repeat match goal with
    | |- context [Rltb ?a ?b] =>
        first [ rewrite (Rltb_true a b) by lra
              | rewrite (Rltb_false a b) by lra ]
    | |- context [Reqb ?a ?b] =>
        first [ rewrite (Reqb_true a b) by lra
              | rewrite (Reqb_false a b) by lra ]
    end.

Lemma num_le_fin (a b : R) : num_le (Fin a) (Fin b) = true <-> a <= b.
Proof.
  unfold num_le; simpl. rewrite orb_true_iff, Rltb_spec, Reqb_spec. lra.
Qed.

Lemma num_le_fin_true (a b : R) : a <= b -> num_le (Fin a) (Fin b) = true.
Proof. apply num_le_fin. Qed.

Lemma num_le_fin_false (a b : R) : b < a -> num_le (Fin a) (Fin b) = false.
Proof.
  intros H. destruct (num_le (Fin a) (Fin b)) eqn:E; [|reflexivity].
  apply num_le_fin in E. lra.
Qed.

Lemma num_div_fin (a b : R) : b <> 0 -> num_div (Fin a) (Fin b) = Fin (a / b).
Proof. intros H; simpl. now rewrite Reqb_false. Qed.

(** ** Integers among the reals *)

Lemma Int_part_IZR (z : Z) : Int_part (IZR z) = z.
Proof. symmetry; apply Int_part_spec; lra. Qed.

Lemma is_integer_IZR (z : Z) : Math.is_integer (IZR z) = true.
Proof. unfold Math.is_integer. rewrite Int_part_IZR. now apply Reqb_true. Qed.

Lemma is_integer_INR (k : nat) : Math.is_integer (INR k) = true.
Proof. rewrite INR_IZR_INZ. apply is_integer_IZR. Qed.

Lemma is_integer_shift (r : R) :
  Math.is_integer (r + 1) = Math.is_integer r.
Proof.
  unfold Math.is_integer.
  assert (E : Int_part (r + 1) = (Int_part r + 1)%Z).
  { symmetry; apply Int_part_spec. rewrite plus_IZR.
    destruct (base_Int_part r). lra. }
  rewrite E, plus_IZR.
  destruct (Req_dec_T r (IZR (Int_part r))) as [H|H].
  - rewrite !Reqb_true; auto; lra.
  - rewrite !Reqb_false; auto; lra.
Qed.

Lemma floor_INR (k : nat) : Math.floor (Fin (INR k)) = Fin (INR k).
Proof. simpl. now rewrite Int_part_INR, <- INR_IZR_INZ. Qed.

Lemma num_ne_floor_fin (r : R) :
  num_ne (Fin r) (Math.floor (Fin r)) = negb (Math.is_integer r).
Proof. reflexivity. Qed.

Lemma num_eq_floor_fin (r : R) :
  num_eq (Fin r) (Math.floor (Fin r)) = Math.is_integer r.
Proof. reflexivity. Qed.

(** ** The option monad and [while] *)

Lemma bind_Some {A B : Type} (m : option A) (k : A -> option B) (b : B) :
  bind m k = Some b <-> exists a, m = Some a /\ k a = Some b.
Proof.
  destruct m as [a|]; simpl; split.
  - intros H; exists a; auto.
  - intros (a' & [= <-] & H); exact H.
  - discriminate.
  - intros (a' & [=] & _).
Qed.

Lemma while_unfold {S : Type} (fuel : nat) (cond : S -> bool)
    (body : S -> option S) (s : S) :
  while (Datatypes.S fuel) cond body s =
  if cond s then bind (body s) (while fuel cond body) else Some s.
Proof. reflexivity. Qed.

Lemma while_step {S : Type} (fuel : nat) (cond : S -> bool)
    (body : S -> option S) (s s' : S) :
  cond s = true -> body s = Some s' ->
  while (Datatypes.S fuel) cond body s = while fuel cond body s'.
Proof. intros Hc Hb. now rewrite while_unfold, Hc, Hb. Qed.

Lemma while_stop {S : Type} (fuel : nat) (cond : S -> bool)
    (body : S -> option S) (s : S) :
  cond s = false -> while (Datatypes.S fuel) cond body s = Some s.
Proof. intros Hc. now rewrite while_unfold, Hc. Qed.

(** Loops are monotone in their fuel, also when the body improves. *)
Lemma while_mono {S : Type} (cond : S -> bool) (body1 body2 : S -> option S) :
  (forall s s', body1 s = Some s' -> body2 s = Some s') ->
  forall (n m : nat) (s r : S), (n <= m)%nat ->
    while n cond body1 s = Some r -> while m cond body2 s = Some r.
Proof.
  intros Hb n; induction n as [|n IH]; intros m s r Hle H; [discriminate|].
  destruct m as [|m]; [lia|].
  rewrite while_unfold in *. destruct (cond s); [|exact H].
  apply bind_Some in H as (s' & Hs' & H).
  apply bind_Some; exists s'; split; [auto|].
  apply IH; [lia | exact H].
Qed.

Lemma returns_of_mono {A : Type} (f : nat -> option A) (n : nat) (v : A) :
  fuel_mono f -> f n = Some v -> returns f v.
Proof. intros Hm H; exists n; intros m Hle; eapply Hm; eauto. Qed.

Lemma returns_unique {A : Type} (f : nat -> option A) (v w : A) :
  returns f v -> returns f w -> v = w.
Proof.
  intros [n Hn] [m Hm].
  specialize (Hn (Nat.max n m) (Nat.le_max_l _ _)).
  specialize (Hm (Nat.max n m) (Nat.le_max_r _ _)).
  congruence.
Qed.

(** ** Fuel monotonicity of the library *)

Section Monotone.

Import jstat.

Lemma factorial_body_mono (g1 g2 : num -> option num) (n m : nat) (x v : num) :
  (forall y w, g1 y = Some w -> g2 y = Some w) -> (n <= m)%nat ->
  factorial_body g1 n x = Some v -> factorial_body g2 m x = Some v.
Proof.
  intros Hg Hle. unfold factorial_body.
  destruct (num_lt x (Fin 0)); [auto|].
  destruct (num_ne x (Math.floor x)); [apply Hg|].
  intros H. apply bind_Some in H as ([n' f'] & Hw & H).
  apply bind_Some. exists (n', f'); split; [|exact H].
  eapply while_mono; [| exact Hle | exact Hw]. auto.
Qed.

Lemma gamma_body_mono (f1 f2 : num -> option num) (n m : nat) (x v : num) :
  (forall y w, f1 y = Some w -> f2 y = Some w) -> (n <= m)%nat ->
  gamma_body f1 n x = Some v -> gamma_body f2 m x = Some v.
Proof.
  intros Hf Hle. unfold gamma_body.
  destruct (num_eq x (Math.floor x)); [apply Hf|].
  intros H. apply bind_Some in H as ([x' v'] & Hw & H).
  apply bind_Some. exists (x', v'); split; [|exact H].
  eapply while_mono; [| exact Hle | exact Hw]. auto.
Qed.

Lemma factorial_gamma_mono (n : nat) :
  (forall m x v, (n <= m)%nat ->
     factorial n x = Some v -> factorial m x = Some v) /\
  (forall m x v, (n <= m)%nat ->
     gamma n x = Some v -> gamma m x = Some v).
Proof.
  induction n as [|n [IHf IHg]]; [split; discriminate|].
  split; intros [|m] x v Hle H; try lia; simpl in *.
  - eapply factorial_body_mono; [| | exact H]; [|lia].
    intros y w; apply IHg; lia.
  - eapply gamma_body_mono; [| | exact H]; [|lia].
    intros y w; apply IHf; lia.
Qed.

Lemma factorial_mono (x : num) : fuel_mono (fun fuel => factorial fuel x).
Proof. intros n m v Hle H. eapply (factorial_gamma_mono n); eauto. Qed.

Lemma gamma_mono (x : num) : fuel_mono (fun fuel => gamma fuel x).
Proof. intros n m v Hle H. eapply (factorial_gamma_mono n); eauto. Qed.

Lemma combination_mono (a b : num) :
  fuel_mono (fun fuel => combination fuel a b).
Proof.
  intros n m v Hle H. unfold combination in *.
  apply bind_Some in H as (fn & H1 & H).
  apply bind_Some in H as (fk & H2 & H).
  apply bind_Some in H as (fnk & H3 & H).
  rewrite (factorial_mono _ _ _ _ Hle H1); simpl.
  rewrite (factorial_mono _ _ _ _ Hle H2); simpl.
  rewrite (factorial_mono _ _ _ _ Hle H3); simpl.
  exact H.
Qed.

Lemma binomial_mono (n p k : num) : fuel_mono (fun fuel => binomial fuel n p k).
Proof.
  intros a b v Hle H. unfold binomial in *.
  apply bind_Some in H as (c & H1 & H).
  rewrite (combination_mono _ _ _ _ _ Hle H1). exact H.
Qed.

Lemma negbin_mono (r p x : num) : fuel_mono (fun fuel => negbin fuel r p x).
Proof.
  intros a b v Hle. unfold negbin.
  destruct (num_ne x (Math.floor x)); [auto|].
  destruct (num_lt x (Fin 0)); [auto|].
  intros H. apply bind_Some in H as (c & H1 & H).
  rewrite (combination_mono _ _ _ _ _ Hle H1). exact H.
Qed.

Lemma hypgeom_mono (N m n x : num) :
  fuel_mono (fun fuel => hypgeom fuel N m n x).
Proof.
  intros a b v Hle. unfold hypgeom.
  destruct (num_ne x (Math.floor x)); [auto|].
  destruct (num_lt x (Fin 0)); [auto|].
  intros H.
  apply bind_Some in H as (c1 & H1 & H).
  apply bind_Some in H as (c2 & H2 & H).
  apply bind_Some in H as (c3 & H3 & H).
  rewrite (combination_mono _ _ _ _ _ Hle H1); simpl.
  rewrite (combination_mono _ _ _ _ _ Hle H2); simpl.
  rewrite (combination_mono _ _ _ _ _ Hle H3); simpl.
  exact H.
Qed.

Lemma poisson_mono (l x : num) : fuel_mono (fun fuel => poisson fuel l x).
Proof.
  intros a b v Hle H. unfold poisson in *.
  apply bind_Some in H as (f & H1 & H).
  rewrite (factorial_mono _ _ _ _ Hle H1). exact H.
Qed.

(** The summation loop shared by [sumFunc] and the cumulative functions. *)
Lemma sum_loop_mono2 (f1 f2 : num -> option value) (b : num) (n m : nat)
    (s r : num * num) :
  (forall k v, f1 k = Some v -> f2 k = Some v) -> (n <= m)%nat ->
  sum_loop n f1 b s = Some r -> sum_loop m f2 b s = Some r.
Proof.
  intros Hf Hle. apply while_mono; [|exact Hle].
  intros [k sum] s' H. apply bind_Some in H as (y & Hy & H).
  now rewrite (Hf k y Hy).
Qed.

Lemma sumFunc_mono (pmf : nat -> num -> option value) (a b : num) :
  (forall k, fuel_mono (fun fuel => pmf fuel k)) ->
  fuel_mono (fun fuel => sumFunc fuel (pmf fuel) a b).
Proof.
  intros Hp n m v Hle H. unfold sumFunc in *.
  apply bind_Some in H as ([a' s'] & Hw & H).
  fold (sum_loop n (pmf n) b (a, Fin 0)) in Hw.
  fold (sum_loop m (pmf m) b (a, Fin 0)).
  rewrite (sum_loop_mono2 (pmf n) (pmf m) b n m _ _
             (fun k v => Hp k n m v Hle) Hle Hw).
  exact H.
Qed.

End Monotone.

(** ** [factorial] and [gamma] *)

Section SpecialFunctions.

Import jstat.

(** The counting loop of [factorial], started at a natural number. *)
Lemma factorial_loop_nat (j : nat) :
  forall (fuel : nat) (r a : R), r = INR j -> (j < fuel)%nat ->
    while fuel (fun '(n, fval) => num_gt n (Fin 0))
      (fun '(n, fval) => Some (num_sub n (Fin 1), num_mul fval n))
      (Fin r, Fin a)
    = Some (Fin 0, Fin (a * INR (fact j))).
Proof.
  induction j as [|j IH]; intros [|fuel] r a Hr Hlt; try lia.
  - simpl in Hr. subst r. rewrite while_stop.
    + do 3 f_equal. simpl. lra.
    + apply Rltb_false. lra.
  - rewrite S_INR in Hr. pose proof (pos_INR j).
    rewrite (while_step _ _ _ _ (Fin (r - 1), Fin (a * r)));
      [| apply Rltb_true; lra | reflexivity].
    rewrite (IH fuel (r - 1) (a * r)); [| lra | lia].
    do 3 f_equal. change (fact (S j)) with ((S j) * fact j)%nat.
    rewrite mult_INR, S_INR. subst r. ring.
Qed.

Lemma factorial_nat (k fuel : nat) :
  (k < fuel)%nat -> factorial fuel (Fin (INR k)) = Some (Fin (INR (fact k))).
Proof.
  destruct fuel as [|fuel]; [lia|]. intros Hlt. simpl. unfold factorial_body.
  pose proof (pos_INR k).
  rewrite num_ne_floor_fin, is_integer_INR. simpl num_lt. rtest. simpl negb.
  cbv iota. rewrite (factorial_loop_nat k _ _ _ eq_refl Hlt). simpl.
  do 2 f_equal. lra.
Qed.

Lemma factorial_nat_returns (k : nat) :
  returns (fun fuel => factorial fuel (Fin (INR k))) (Fin (INR (fact k))).
Proof. exists (S k). intros fuel H. apply factorial_nat. lia. Qed.

(** A negative argument is answered before anything else is looked at. *)
Lemma factorial_body_negative (g : num -> option num) (fuel : nat) (n : num) :
  num_lt n (Fin 0) = true -> factorial_body g fuel n = Some NaN.
Proof. intros H. unfold factorial_body. now rewrite H. Qed.

Lemma factorial_negative_returns (n : num) :
  num_lt n (Fin 0) = true -> returns (fun fuel => factorial fuel n) NaN.
Proof.
  intros H. exists 1%nat. intros [|fuel] Hle; [lia|].
  simpl. now apply factorial_body_negative.
Qed.

(** A non-negative non-integer argument is handed to [gamma]. *)
Lemma factorial_nonint (fuel : nat) (n : num) :
  num_lt n (Fin 0) = false -> num_ne n (Math.floor n) = true ->
  factorial (S fuel) n = gamma fuel (num_add n (Fin 1)).
Proof. intros H1 H2. simpl. unfold factorial_body. now rewrite H1, H2. Qed.

(** An integer argument of [gamma] is handed to [factorial]. *)
Lemma gamma_int (fuel : nat) (x : num) :
  num_eq x (Math.floor x) = true ->
  gamma (S fuel) x = factorial fuel (num_sub x (Fin 1)).
Proof. intros H. simpl. unfold gamma_body. now rewrite H. Qed.

(** The shifting loop of [gamma] stops on every finite start. *)
Lemma gamma_loop_steps (j : nat) :
  forall (fuel : nat) (r : R) (v : num), 8 <= r + INR j -> (j < fuel)%nat ->
    exists s, while fuel (fun '(x, v) => num_lt x (Fin 8))
                (fun '(x, v) => Some (num_add x (Fin 1), num_mul v x))
                (Fin r, v) = Some s.
Proof.
  induction j as [|j IH]; intros [|fuel] r v Hr Hlt; try lia.
  - simpl in Hr. rewrite while_stop; [eauto|]. apply Rltb_false. lra.
  - destruct (Rlt_dec r 8) as [H|H].
    + rewrite (while_step _ _ _ _ (Fin (r + 1), num_mul v (Fin r)));
        [| now apply Rltb_true | reflexivity].
      apply IH; [|lia]. rewrite S_INR in Hr. lra.
    + rewrite while_stop; [eauto|]. apply Rltb_false. lra.
Qed.

Lemma nat_above (r : R) : exists j : nat, r <= INR j.
Proof.
  exists (Z.to_nat (up r)). destruct (archimed r) as [H _].
  rewrite INR_IZR_INZ. apply Rle_trans with (IZR (up r)); [lra|].
  apply IZR_le. lia.
Qed.

Lemma gamma_nonint_returns (x : num) :
  num_eq x (Math.floor x) = false ->
  exists v, returns (fun fuel => gamma fuel x) v.
Proof.
  intros Hx.
  assert (Hloop : exists fuel s,
            while fuel (fun '(x, v) => num_lt x (Fin 8))
              (fun '(x, v) => Some (num_add x (Fin 1), num_mul v x))
              (x, Fin 1) = Some s).
  { destruct x as [| | |r]; try discriminate.
    - exists 1%nat, (NaN, Fin 1). reflexivity.
    - destruct (nat_above (8 - r)) as [j Hj].
      destruct (gamma_loop_steps j (S j) r (Fin 1)) as [s Hs];
        [lra | lia | eauto]. }
  destruct Hloop as (fuel & [x' v'] & Hs).
  exists (gamma_series x' v'). apply (returns_of_mono _ (S fuel)).
  - apply gamma_mono.
  - simpl. unfold gamma_body. rewrite Hx.
    rewrite (while_mono _ _ _ (fun _ _ H => H) fuel (S fuel) _ _
               (Nat.le_succ_diag_r fuel) Hs).
    reflexivity.
Qed.

Lemma nonint_shift (n : num) :
  num_ne n (Math.floor n) = true ->
  num_eq (num_add n (Fin 1)) (Math.floor (num_add n (Fin 1))) = false.
Proof.
  destruct n as [| | |r]; try discriminate; [reflexivity|].
  simpl num_add. rewrite num_ne_floor_fin, num_eq_floor_fin, is_integer_shift.
  now destruct (Math.is_integer r).
Qed.

End SpecialFunctions.

Section SpecialValues.

Import jstat.

(** A real strictly between two consecutive integers is not an integer. *)
Lemma is_integer_between (z : Z) (r : R) :
  IZR z < r < IZR z + 1 -> Math.is_integer r = false.
Proof.
  intros H. unfold Math.is_integer.
  rewrite <- (Int_part_spec r z) by lra. apply Reqb_false. lra.
Qed.



End SpecialValues.

(** ** Statements about [factorial] and [gamma] *)

Section FactorialClaims.

Import jstat.

(** C10.  For every negative non-integer [n], [factorial n] returns
    not-a-number and does not call [gamma]: the result is [NaN] whatever
    function stands in for [gamma], and already with the single unit of
    fuel that leaves [gamma] none. *)
Theorem factorial_negative_nonint (n : num) :
  num_lt n (Fin 0) = true -> num_ne n (Math.floor n) = true ->
  returns (fun fuel => factorial fuel n) NaN /\
  (forall (g : num -> option num) (fuel : nat),
      factorial_body g fuel n = Some NaN) /\
  factorial 1 n = Some NaN.
Proof.
  intros Hneg _. split; [|split].
  - now apply factorial_negative_returns.
  - intros g fuel. now apply factorial_body_negative.
  - simpl. now apply factorial_body_negative.
Qed.

Lemma factorial_negative_nonint_witness :
  returns (fun fuel => factorial fuel (Fin (-2.5))) NaN /\
  (forall (g : num -> option num) (fuel : nat),
      factorial_body g fuel (Fin (-2.5)) = Some NaN) /\
  factorial 1 (Fin (-2.5)) = Some NaN.
Proof.
  apply (factorial_negative_nonint (Fin (-2.5))).
  - apply Rltb_true. lra.
  - rewrite num_ne_floor_fin, (is_integer_between (-3)); [reflexivity | lra].
Defined.

(** [gamma] is consulted by [factorial] only on the remaining branch:
    for a negative or an integer argument the stand-in for [gamma] is
    irrelevant. *)
Lemma factorial_body_gamma_irrelevant (g1 g2 : num -> option num)
    (fuel : nat) (n : num) :
  num_lt n (Fin 0) = true \/ num_ne n (Math.floor n) = false ->
  factorial_body g1 fuel n = factorial_body g2 fuel n.
Proof.
  intros [H|H]; unfold factorial_body; rewrite H; [reflexivity|].
  now destruct (num_lt n (Fin 0)).
Qed.

(** C8.  For every natural [k], [gamma (k + 1)] is the very call
    [factorial k] (the integer shortcut: whatever function stands in for
    [factorial] is called on [k] and its result returned, the series is not
    evaluated), and both return the exact value [k!]. *)
Theorem gamma_succ_is_factorial (k : nat) :
  (forall (f : num -> option num) (fuel : nat),
      gamma_body f fuel (num_add (Fin (INR k)) (Fin 1)) = f (Fin (INR k))) /\
  (forall fuel : nat,
      gamma (S fuel) (num_add (Fin (INR k)) (Fin 1))
      = factorial fuel (Fin (INR k))) /\
  returns (fun fuel => gamma fuel (num_add (Fin (INR k)) (Fin 1)))
    (Fin (INR (fact k))) /\
  returns (fun fuel => factorial fuel (Fin (INR k))) (Fin (INR (fact k))).
Proof.
  assert (Hbody : forall (f : num -> option num) (fuel : nat),
             gamma_body f fuel (num_add (Fin (INR k)) (Fin 1))
             = f (Fin (INR k))).
  { intros f fuel. unfold gamma_body. simpl num_add.
    rewrite num_eq_floor_fin, <- S_INR, is_integer_INR, S_INR.
    simpl num_sub. f_equal. f_equal. lra. }
  assert (Hstep : forall fuel : nat,
             gamma (S fuel) (num_add (Fin (INR k)) (Fin 1))
             = factorial fuel (Fin (INR k))).
  { intros fuel. simpl gamma. apply Hbody. }
  split; [exact Hbody|]. split; [exact Hstep|].
  split; [|apply factorial_nat_returns].
  exists (S (S k)). intros [|fuel] Hle; [lia|].
  rewrite Hstep. apply factorial_nat. lia.
Qed.




End FactorialClaims.

(** ** Statements about the distribution functions *)

Section DistributionClaims.

Import jstat.

(** C4.  On every non-integer [x] (negative ones included), with any
    other arguments and any fuel, [negbin] and [hypgeom] answer with the
    boolean [false], which is neither the number [0] nor not-a-number nor
    any other number. *)
Theorem pmf_rejects_nonint (r p N m n x : num) (fuel : nat) :
  num_ne x (Math.floor x) = true ->
  negbin fuel r p x = Some (VBool false) /\
  hypgeom fuel N m n x = Some (VBool false) /\
  VBool false <> VNum (Fin 0) /\
  VBool false <> VNum NaN /\
  (forall y : num, VBool false <> VNum y).
Proof.
  intros H. unfold negbin, hypgeom. rewrite H.
  repeat split; discriminate.
Qed.

Lemma pmf_rejects_nonint_witness :
  negbin 0 (Fin 2) (Fin 0.5) (Fin (-1.5)) = Some (VBool false) /\
  hypgeom 0 (Fin 50) (Fin 25) (Fin 10) (Fin (-1.5)) = Some (VBool false) /\
  VBool false <> VNum (Fin 0) /\
  VBool false <> VNum NaN /\
  (forall y : num, VBool false <> VNum y).
Proof.
  apply (pmf_rejects_nonint (Fin 2) (Fin 0.5) (Fin 50) (Fin 25) (Fin 10)
           (Fin (-1.5)) 0).
  rewrite num_ne_floor_fin, (is_integer_between (-2)); [reflexivity | lra].
Defined.

(** C5.  [exponentialcdf] does not depend on its rate argument: for any
    two rates the results agree and are [1 - exp (-x)], that is
    [1 - e^(-x)] on a finite [x]. *)
Theorem exponentialcdf_ignores_rate (l1 l2 x : num) :
  exponentialcdf l1 x = exponentialcdf l2 x /\
  exponentialcdf l1 x = num_sub (Fin 1) (Math.exp (num_neg x)) /\
  (forall r : R, x = Fin r -> exponentialcdf l1 x = Fin (1 - exp (- r))).
Proof.
  split; [reflexivity|]. split; [reflexivity|].
  intros r ->. reflexivity.
Qed.

(** The value of [uniformcdf] when its two bounds are equal. *)
Lemma uniformcdf_same_bounds (a b x : num) :
  num_eq a b = true ->
  uniformcdf a b x = if num_lt x a then Fin 0 else Fin 1.
Proof.
  intros Hab. unfold uniformcdf.
  destruct (num_lt x a) eqn:Hxa; [reflexivity|].
  assert (Hxb : num_lt x b = false); [|now rewrite Hxb].
  destruct a as [| | |ra], b as [| | |rb]; try discriminate; try exact Hxa.
  apply Reqb_spec in Hab. now subst rb.
Qed.

(** C6, as the code has it.  With [a == b] the division of [uniformcdf] is
    never reached: the result is [0] when [x < a] and [1] otherwise. *)
Theorem uniformcdf_degenerate (a b x : num) :
  num_eq a b = true ->
  uniformcdf a b x = (if num_lt x a then Fin 0 else Fin 1) /\
  (uniformcdf a b x = Fin 0 \/ uniformcdf a b x = Fin 1).
Proof.
  intros Hab. rewrite (uniformcdf_same_bounds a b x Hab).
  split; [reflexivity|]. destruct (num_lt x a); auto.
Qed.

Lemma uniformcdf_degenerate_witness :
  uniformcdf (Fin 2) (Fin 2) (Fin 2)
    = (if num_lt (Fin 2) (Fin 2) then Fin 0 else Fin 1) /\
  (uniformcdf (Fin 2) (Fin 2) (Fin 2) = Fin 0 \/
   uniformcdf (Fin 2) (Fin 2) (Fin 2) = Fin 1).
Proof.
  apply (uniformcdf_degenerate (Fin 2) (Fin 2) (Fin 2)).
  apply Reqb_true. reflexivity.
Defined.

(** C6 as stated fails: no input with [a == b] makes [uniformcdf] produce
    an infinity or not-a-number. *)
Lemma uniformcdf_equal_bounds_never_divides :
  ~ (exists a b x : num,
        num_eq a b = true /\
        (uniformcdf a b x = PInf \/ uniformcdf a b x = NInf \/
         uniformcdf a b x = NaN)).
Proof.
  intros (a & b & x & Hab & H).
  rewrite (uniformcdf_same_bounds a b x Hab) in H.
  destruct (num_lt x a); destruct H as [H|[H|H]]; discriminate.
Qed.

(** The division of [uniformcdf] can still produce not-a-number, between
    infinite bounds. *)
Example uniformcdf_infinite_bounds : uniformcdf NInf PInf (Fin 0) = NaN.
Proof. reflexivity. Qed.

(** With [a < b] finite, [uniformcdf] is a probability at every finite
    point. *)
Lemma uniformcdf_unit (a b x : R) :
  a < b -> exists r : R, uniformcdf (Fin a) (Fin b) (Fin x) = Fin r /\ 0 <= r <= 1.
Proof.
  intros Hab. unfold uniformcdf. simpl num_lt.
  destruct (Rlt_dec x a) as [H|H]; [rewrite Rltb_true by lra|rewrite Rltb_false by lra].
  { exists 0. split; [reflexivity | lra]. }
  destruct (Rlt_dec x b) as [H'|H']; [rewrite Rltb_true by lra|rewrite Rltb_false by lra].
  2:{ exists 1. split; [reflexivity | lra]. }
  exists ((x - a) / (b - a)). split.
  - simpl num_sub. apply num_div_fin. lra.
  - assert (0 < / (b - a)) by (apply Rinv_0_lt_compat; lra).
    split.
    + apply Rmult_le_pos; lra.
    + apply Rmult_le_reg_r with (b - a); [lra|]. field_simplify; lra.
Qed.

(** At a finite non-negative point, [exponentialcdf] is a probability. *)
Lemma exponentialcdf_unit (l : num) (x : R) :
  0 <= x -> exists r : R, exponentialcdf l (Fin x) = Fin r /\ 0 <= r < 1.
Proof.
  intros Hx. exists (1 - exp (- x)). split; [reflexivity|].
  pose proof (exp_pos (- x)).
  assert (exp (- x) <= 1); [|lra].
  destruct (Req_dec x 0) as [->|Hne].
  - rewrite Ropp_0, exp_0. lra.
  - rewrite <- exp_0. left. apply exp_increasing. lra.
Qed.

(** Every other cumulative function answers [0] below its support. *)
Lemma cdfs_zero_below_support (fuel : nat) (x : num) :
  num_lt x (Fin 0) = true ->
  (forall n p, binomialcdf fuel n p x = Some (Fin 0)) /\
  (forall n p, negbincdf fuel n p x = Some (Fin 0)) /\
  (forall N m n, hypgeomcdf fuel N m n x = Some (Fin 0)) /\
  (forall l, poissoncdf fuel l x = Some (Fin 0)) /\
  (forall a b, num_le (Fin 0) a = true -> uniformcdf a b x = Fin 0).
Proof.
  intros Hx. unfold binomialcdf, negbincdf, hypgeomcdf, poissoncdf, uniformcdf.
  rewrite Hx. repeat split; try reflexivity.
  intros a b Ha. assert (Hxa : num_lt x a = true); [|now rewrite Hxa].
  destruct x as [| | |xr], a as [| | |ar]; try discriminate; try reflexivity.
  apply num_le_fin in Ha. apply Rltb_spec in Hx. apply Rltb_true. lra.
Qed.

(** C2 at a negative point: for every rate [l], [exponentialcdf l (-1)] is
    the finite number [1 - e], which is negative and so outside [[0, 1]]. *)
Theorem exponentialcdf_negative_point (l : num) :
  exponentialcdf l (Fin (-1)) = Fin (1 - exp 1) /\
  1 - exp 1 < 0 /\
  ~ (exists r : R, exponentialcdf l (Fin (-1)) = Fin r /\ 0 <= r <= 1).
Proof.
  assert (E : exponentialcdf l (Fin (-1)) = Fin (1 - exp 1)).
  { unfold exponentialcdf. simpl. replace (- -1) with 1 by lra. reflexivity. }
  assert (Hlt : 1 - exp 1 < 0).
  { pose proof (exp_ineq1 1). lra. }
  split; [exact E|]. split; [exact Hlt|].
  intros (r & Hr & H0 & H1). rewrite E in Hr. injection Hr as <-. lra.
Qed.

(** C3.  On every non-integer [x], [poisson l x] performs no integer check:
    it returns the number [l^x * e^(-l) / f] where [f] is what
    [factorial x] returns, never a boolean; and when [x] is not negative
    that [factorial x] is the call [gamma (x + 1)].  [negbin] and [hypgeom]
    reject the same [x]. *)
Theorem poisson_accepts_nonint (l x : num) :
  num_ne x (Math.floor x) = true ->
  (exists f : num,
      returns (fun fuel => factorial fuel x) f /\
      returns (fun fuel => poisson fuel l x)
        (VNum (num_div (num_mul (Math.pow l x) (Math.exp (num_neg l))) f))) /\
  (forall (fuel : nat) (v : value),
      poisson fuel l x = Some v -> exists y : num, v = VNum y) /\
  (num_lt x (Fin 0) = false ->
   forall fuel : nat, factorial (S fuel) x = gamma fuel (num_add x (Fin 1))) /\
  (forall (fuel : nat) (r p N m n : num),
      negbin fuel r p x = Some (VBool false) /\
      hypgeom fuel N m n x = Some (VBool false)).
Proof.
  intros Hni. split; [|split; [|split]].
  - assert (Hf : exists f, returns (fun fuel => factorial fuel x) f).
    { destruct (num_lt x (Fin 0)) eqn:Hneg.
      - exists NaN. now apply factorial_negative_returns.
      - destruct (gamma_nonint_returns _ (nonint_shift x Hni)) as (v & n0 & Hv).
        exists v, (S n0). intros [|fuel] Hle; [lia|].
        rewrite factorial_nonint by assumption. apply Hv. lia. }
    destruct Hf as (f & n0 & Hf). exists f. split; [exists n0; exact Hf|].
    exists n0. intros fuel Hle. unfold poisson. now rewrite (Hf fuel Hle).
  - intros fuel v H. unfold poisson in H.
    apply bind_Some in H as (f & _ & [= <-]). eauto.
  - intros Hneg fuel. now apply factorial_nonint.
  - intros fuel r p N m n. unfold negbin, hypgeom. now rewrite Hni.
Qed.

Lemma poisson_accepts_nonint_witness :
  (exists f : num,
      returns (fun fuel => factorial fuel (Fin 2.5)) f /\
      returns (fun fuel => poisson fuel (Fin 2) (Fin 2.5))
        (VNum (num_div (num_mul (Math.pow (Fin 2) (Fin 2.5))
                          (Math.exp (num_neg (Fin 2)))) f))) /\
  (forall (fuel : nat) (v : value),
      poisson fuel (Fin 2) (Fin 2.5) = Some v -> exists y : num, v = VNum y) /\
  (num_lt (Fin 2.5) (Fin 0) = false ->
   forall fuel : nat,
     factorial (S fuel) (Fin 2.5) = gamma fuel (num_add (Fin 2.5) (Fin 1))) /\
  (forall (fuel : nat) (r p N m n : num),
      negbin fuel r p (Fin 2.5) = Some (VBool false) /\
      hypgeom fuel N m n (Fin 2.5) = Some (VBool false)).
Proof.
  apply (poisson_accepts_nonint (Fin 2) (Fin 2.5)).
  rewrite num_ne_floor_fin, (is_integer_between 2); [reflexivity | lra].
Defined.

End DistributionClaims.

(** ** The summation loop *)

Section Summation.

Import jstat.

Lemma sumFunc_unfold (fuel : nat) (f : num -> option value) (a b : num) :
  sumFunc fuel f a b = '(_, sum) <- sum_loop fuel f b (a, Fin 0) ;; Some sum.
Proof. reflexivity. Qed.

Lemma sum_loop_step (n : nat) (f : num -> option value) (b k s : num)
    (y : value) :
  num_le k b = true -> f k = Some y ->
  sum_loop (S n) f b (k, s)
  = sum_loop n f b (num_add k (Fin 1), num_add s (to_number y)).
Proof.
  intros Hc Hy. unfold sum_loop.
  apply while_step; [exact Hc | now rewrite Hy].
Qed.

Lemma sum_loop_stop (n : nat) (f : num -> option value) (b k s : num) :
  num_le k b = false -> sum_loop (S n) f b (k, s) = Some (k, s).
Proof. intros Hc. unfold sum_loop. now apply while_stop. Qed.

Lemma sum_loop_run (f : num -> option value) (g : nat -> num) (b : R) (m : nat) :
  INR m <= b < INR m + 1 ->
  (forall j, (j <= m)%nat ->
     exists v, f (Fin (INR j)) = Some v /\ to_number v = g j) ->
  forall (d j : nat) (r : R) (s : num), r = INR j -> (j + d = S m)%nat ->
    sum_loop (S d) f (Fin b) (Fin r, s)
    = Some (Fin (INR (S m)),
            fold_left (fun a i => num_add a (g i)) (seq j d) s).
Proof.
  intros Hb Hf. induction d as [|d IH]; intros j r s Hr Hj.
  - replace j with (S m) in * by lia. subst r.
    rewrite sum_loop_stop; [reflexivity|].
    apply num_le_fin_false. rewrite S_INR. lra.
  - assert (Hjm : (j <= m)%nat) by lia.
    destruct (Hf j Hjm) as (v & Hv & Hg).
    assert (INR j <= INR m) by now apply le_INR.
    rewrite (sum_loop_step _ _ _ _ _ v);
      [| apply num_le_fin_true; lra | now subst r].
    simpl num_add at 1. rewrite (IH (S j)); [| |lia].
    + simpl. now rewrite Hg.
    + rewrite S_INR. lra.
Qed.

(** Finitely many returning calls share a sufficient fuel. *)
Lemma returns_below {A : Type} (h : nat -> nat -> option A) (w : nat -> A)
    (K : nat) :
  (forall j, (j < K)%nat -> returns (h j) (w j)) ->
  exists N : nat, forall fuel, (N <= fuel)%nat ->
    forall j, (j < K)%nat -> h j fuel = Some (w j).
Proof.
  induction K as [|K IH]; intros H.
  - exists 0%nat. intros fuel _ j Hj. lia.
  - destruct IH as [N1 H1]; [intros j Hj; apply H; lia|].
    destruct (H K (Nat.lt_succ_diag_r K)) as [N2 H2].
    exists (Nat.max N1 N2). intros fuel Hle j Hj.
    destruct (Nat.eq_dec j K) as [->|Hne].
    + apply H2. lia.
    + apply H1; lia.
Qed.

Lemma choice_upto {A : Type} (P : nat -> A -> Prop) (m : nat) :
  (forall j, (j <= m)%nat -> exists v, P j v) ->
  exists w : nat -> A, forall j, (j <= m)%nat -> P j (w j).
Proof.
  induction m as [|m IH]; intros H.
  - destruct (H 0%nat (le_n 0)) as [v Hv]. exists (fun _ => v).
    intros j Hj. now replace j with 0%nat by lia.
  - destruct IH as [w Hw]; [intros j Hj; apply H; lia|].
    destruct (H (S m) (le_n _)) as [v Hv].
    exists (fun j => if Nat.eq_dec j (S m) then v else w j).
    intros j Hj. destruct (Nat.eq_dec j (S m)) as [->|Hne]; [exact Hv|].
    apply Hw. lia.
Qed.

(** The integer part of a non-negative real, as a natural number. *)
Lemma nat_floor (r : R) : 0 <= r -> exists m : nat, INR m <= r < INR m + 1.
Proof.
  intros Hr. exists (Z.to_nat (Int_part r)).
  destruct (base_Int_part r) as [H1 H2].
  assert (0 <= Int_part r)%Z.
  { apply Z.lt_succ_r, lt_IZR. rewrite succ_IZR. lra. }
  rewrite INR_IZR_INZ, Z2Nat.id by assumption. lra.
Qed.

(** [sumFunc f 0 x] adds the values of [f] at [0, 1, ..., floor x]. *)
Lemma sumFunc_returns (pmf : nat -> num -> option value) (w : nat -> value)
    (x : R) (m : nat) :
  INR m <= x < INR m + 1 ->
  (forall j, (j <= m)%nat ->
     returns (fun fuel => pmf fuel (Fin (INR j))) (w j)) ->
  returns (fun fuel => sumFunc fuel (pmf fuel) (Fin 0) (Fin x))
    (sum_upto (fun j => to_number (w j)) m).
Proof.
  intros Hx Hw.
  destruct (returns_below (fun j fuel => pmf fuel (Fin (INR j))) w (S m))
    as [N HN]; [intros j Hj; apply Hw; lia|].
  exists (Nat.max N (S (S m))). intros fuel Hle. rewrite sumFunc_unfold.
  assert (Hrun : sum_loop (S (S m)) (pmf fuel) (Fin x) (Fin 0, Fin 0)
                 = Some (Fin (INR (S m)), sum_upto (fun j => to_number (w j)) m)).
  { apply (sum_loop_run _ (fun j => to_number (w j)) x m Hx); [|reflexivity|lia].
    intros j Hj. exists (w j). split; [apply HN; lia|reflexivity]. }
  assert (Hfu : (S (S m) <= fuel)%nat) by lia.
  rewrite (sum_loop_mono2 _ (pmf fuel) _ _ fuel _ _ (fun _ _ H => H) Hfu Hrun).
  reflexivity.
Qed.

End Summation.

(** ** Which calls return *)

Section Totality.

Import jstat.

Lemma returns_bind {A B : Type} (f : nat -> option A)
    (k : nat -> A -> option B) (a : A) (b : B) :
  returns f a -> returns (fun fuel => k fuel a) b ->
  returns (fun fuel => x <- f fuel ;; k fuel x) b.
Proof.
  intros [n Hn] [m Hm]. exists (Nat.max n m). intros fuel Hle.
  rewrite Hn by lia. simpl. apply Hm. lia.
Qed.

Lemma returns_const {A : Type} (a : A) : returns (fun _ => Some a) a.
Proof. exists 0%nat. reflexivity. Qed.

Lemma factorial_nonint_returns (n : num) :
  num_lt n (Fin 0) = false -> num_ne n (Math.floor n) = true ->
  exists v : num,
    returns (fun fuel => gamma fuel (num_add n (Fin 1))) v /\
    returns (fun fuel => factorial fuel n) v.
Proof.
  intros Hneg Hni.
  destruct (gamma_nonint_returns _ (nonint_shift n Hni)) as (v & n0 & Hv).
  exists v. split; [exists n0; exact Hv|].
  exists (S n0). intros [|fuel] Hle; [lia|].
  rewrite factorial_nonint by assumption. apply Hv. lia.
Qed.

(** On [+Infinity] the counting loop of [factorial] never ends. *)
Lemma factorial_PInf (fuel : nat) : factorial fuel PInf = None.
Proof.
  destruct fuel as [|fuel]; [reflexivity|]. simpl. unfold factorial_body.
  simpl num_lt. simpl num_ne. cbv iota.
  assert (H : forall (n : nat) (fval : num),
             while n (fun '(n, fval) => num_gt n (Fin 0))
               (fun '(n, fval) => Some (num_sub n (Fin 1), num_mul fval n))
               (PInf, fval) = None).
  { induction n as [|n IH]; intros fval; [reflexivity|].
    rewrite (while_step _ _ _ _ (PInf, num_mul fval PInf)); auto. }
  now rewrite H.
Qed.

(** Everywhere else [factorial] returns. *)
Lemma factorial_total (n : num) :
  n <> PInf -> exists v : num, returns (fun fuel => factorial fuel n) v.
Proof.
  intros Hn. destruct (num_lt n (Fin 0)) eqn:Hneg.
  { exists NaN. now apply factorial_negative_returns. }
  destruct (num_ne n (Math.floor n)) eqn:Hni.
  { destruct (factorial_nonint_returns n Hneg Hni) as (v & _ & Hv). eauto. }
  destruct n as [| | |r]; try discriminate; [congruence|].
  rewrite num_ne_floor_fin in Hni. apply negb_false_iff, Reqb_spec in Hni.
  simpl in Hneg.
  assert (Hr : 0 <= r).
  { destruct (Rlt_dec r 0) as [H|H]; [|lra].
    rewrite Rltb_true in Hneg by assumption. discriminate. }
  assert (Hz : (0 <= Int_part r)%Z) by (apply le_IZR; lra).
  assert (Hk : r = INR (Z.to_nat (Int_part r))).
  { rewrite INR_IZR_INZ, Z2Nat.id by assumption. exact Hni. }
  generalize dependent (Z.to_nat (Int_part r)). intros k ->.
  exists (Fin (INR (fact k))). apply factorial_nat_returns.
Qed.

Lemma combination_total (n k : R) :
  exists v : num, returns (fun fuel => combination fuel (Fin n) (Fin k)) v.
Proof.
  destruct (factorial_total (Fin n)) as [fn Hfn]; [discriminate|].
  destruct (factorial_total (Fin k)) as [fk Hfk]; [discriminate|].
  destruct (factorial_total (Fin (n - k))) as [fnk Hfnk]; [discriminate|].
  exists (num_div (num_div fn fk) fnk). unfold combination.
  apply (returns_bind _ _ fn); [exact Hfn|].
  apply (returns_bind _ _ fk); [exact Hfk|].
  apply (returns_bind _ _ fnk); [exact Hfnk|].
  apply returns_const.
Qed.

Lemma binomial_total (n k : R) (p : num) :
  exists v : value, returns (fun fuel => binomial fuel (Fin n) p (Fin k)) v.
Proof.
  destruct (combination_total n k) as [c Hc].
  eexists. unfold binomial.
  apply (returns_bind _ _ c); [exact Hc|]. apply returns_const.
Qed.

Lemma negbin_total (r x : R) (p : num) :
  exists v : value, returns (fun fuel => negbin fuel (Fin r) p (Fin x)) v.
Proof.
  unfold negbin.
  destruct (num_ne (Fin x) (Math.floor (Fin x)));
    [eexists; apply returns_const|].
  destruct (num_lt (Fin x) (Fin 0)); [eexists; apply returns_const|].
  destruct (combination_total (x + r - 1) (r - 1)) as [c Hc].
  eexists. apply (returns_bind _ _ c); [exact Hc|]. apply returns_const.
Qed.

Lemma hypgeom_total (N m n x : R) :
  exists v : value,
    returns (fun fuel => hypgeom fuel (Fin N) (Fin m) (Fin n) (Fin x)) v.
Proof.
  unfold hypgeom.
  destruct (num_ne (Fin x) (Math.floor (Fin x)));
    [eexists; apply returns_const|].
  destruct (num_lt (Fin x) (Fin 0)); [eexists; apply returns_const|].
  destruct (combination_total m x) as [c1 H1].
  destruct (combination_total (N - m) (n - x)) as [c2 H2].
  destruct (combination_total N n) as [c3 H3].
  eexists.
  apply (returns_bind _ _ c1); [exact H1|].
  apply (returns_bind _ _ c2); [exact H2|].
  apply (returns_bind _ _ c3); [exact H3|].
  apply returns_const.
Qed.

Lemma poisson_total (l : num) (x : R) :
  exists v : value, returns (fun fuel => poisson fuel l (Fin x)) v.
Proof.
  destruct (factorial_total (Fin x)) as [f Hf]; [discriminate|].
  eexists. unfold poisson.
  apply (returns_bind _ _ f); [exact Hf|]. apply returns_const.
Qed.

(** A summation over [0 .. x] returns as soon as every summand does. *)
Lemma sumFunc_total (pmf : nat -> num -> option value) (x : R) :
  0 <= x ->
  (forall j : nat, exists v, returns (fun fuel => pmf fuel (Fin (INR j))) v) ->
  exists v : num,
    returns (fun fuel => sumFunc fuel (pmf fuel) (Fin 0) (Fin x)) v.
Proof.
  intros Hx Hp. destruct (nat_floor x Hx) as [m Hm].
  destruct (choice_upto
              (fun j v => returns (fun fuel => pmf fuel (Fin (INR j))) v) m)
    as [w Hw]; [intros j _; apply Hp|].
  eexists. apply (sumFunc_returns pmf w x m Hm Hw).
Qed.

End Totality.

(** ** The two loops of [binomialcdf] *)

Section BinomialCdf.

Import jstat.

Lemma binomialcdf_unfold (fuel : nat) (n p x : num) :
  binomialcdf fuel n p x =
  if num_lt x (Fin 0) then Some (Fin 0)
  else
    '(_, binomarr) <- fill_loop fuel (binomial fuel n p) n (Fin 0, []) ;;
    if num_lt x n then
      '(_, sum) <- sum_loop fuel (fun i => Some (arr_get binomarr i)) x
                     (Fin 0, Fin 0) ;;
      Some sum
    else Some (Fin 1).
Proof.
  reflexivity.
Qed.

Lemma fill_loop_mono2 (f1 f2 : num -> option value) (n : num) (a b : nat)
    (s r : num * array) :
  (forall k v, f1 k = Some v -> f2 k = Some v) -> (a <= b)%nat ->
  fill_loop a f1 n s = Some r -> fill_loop b f2 n s = Some r.
Proof.
  intros Hf Hle. apply while_mono; [|exact Hle].
  intros [k arr] s' H. apply bind_Some in H as (y & Hy & H).
  now rewrite (Hf k y Hy).
Qed.

Lemma fill_loop_step (a : nat) (f : num -> option value) (n k : num)
    (arr : array) (b : value) :
  num_lt k n = true -> f k = Some b ->
  fill_loop (S a) f n (k, arr)
  = fill_loop a f n (num_add k (Fin 1), arr_set arr k b).
Proof.
  intros Hc Hb. unfold fill_loop.
  apply while_step; [exact Hc | now rewrite Hb].
Qed.

Lemma fill_loop_stop (a : nat) (f : num -> option value) (n k : num)
    (arr : array) :
  num_lt k n = false -> fill_loop (S a) f n (k, arr) = Some (k, arr).
Proof. intros Hc. unfold fill_loop. now apply while_stop. Qed.

Lemma arr_get_set (arr : array) (i j : nat) (v : value) :
  arr_get (arr_set arr (Fin (INR j)) v) (Fin (INR i))
  = if Nat.eq_dec i j then v else arr_get arr (Fin (INR i)).
Proof.
  change (arr_get (arr_set arr (Fin (INR j)) v) (Fin (INR i)))
    with (if num_eq_dec (Fin (INR i)) (Fin (INR j)) then v
          else arr_get arr (Fin (INR i))).
  destruct (num_eq_dec (Fin (INR i)) (Fin (INR j))) as [E|E];
    destruct (Nat.eq_dec i j) as [E'|E']; try reflexivity.
  - injection E as E. apply INR_eq in E. congruence.
  - subst j. congruence.
Qed.

(** After the filling loop, slot [i] holds the pmf at [i] for every
    natural [i] below [n]. *)
Lemma fill_loop_run (f : num -> option value) (w : nat -> value) (n : R)
    (K : nat) :
  n <= INR K < n + 1 ->
  (forall j, (j < K)%nat -> f (Fin (INR j)) = Some (w j)) ->
  forall (d j : nat) (r : R) (arr : array), r = INR j -> (j + d = K)%nat ->
    exists arr' : array,
      fill_loop (S d) f (Fin n) (Fin r, arr) = Some (Fin (INR K), arr') /\
      (forall i, (j <= i < K)%nat -> arr_get arr' (Fin (INR i)) = w i) /\
      (forall i, (i < j)%nat ->
         arr_get arr' (Fin (INR i)) = arr_get arr (Fin (INR i))).
Proof.
  intros HK Hf. induction d as [|d IH]; intros j r arr Hr Hj.
  - replace j with K in * by lia. subst r. exists arr.
    rewrite fill_loop_stop by (apply Rltb_false; lra).
    split; [reflexivity|]. split; [intros i Hi; lia|auto].
  - assert (HjK : (j < K)%nat) by lia.
    assert (INR j + 1 <= INR K) by (rewrite <- S_INR; apply le_INR; lia).
    rewrite (fill_loop_step _ _ _ _ _ (w j));
      [| apply Rltb_true; lra | subst r; now apply Hf].
    simpl num_add.
    destruct (IH (S j) (r + 1) (arr_set arr (Fin r) (w j)))
      as (arr' & Hrun & Hnew & Hold); [rewrite S_INR; lra | lia |].
    exists arr'. split; [exact Hrun|]. subst r. split.
    + intros i Hi. destruct (Nat.eq_dec i j) as [->|Hne].
      * rewrite Hold by lia. rewrite arr_get_set.
        now destruct (Nat.eq_dec j j).
      * apply Hnew. lia.
    + intros i Hi. rewrite Hold by lia. rewrite arr_get_set.
      destruct (Nat.eq_dec i j); [lia|reflexivity].
Qed.

(** The least natural number at or above a non-negative real. *)
Lemma nat_ceil (r : R) : 0 <= r -> exists K : nat, r <= INR K < r + 1.
Proof.
  intros Hr. destruct (nat_floor r Hr) as [m Hm].
  destruct (Req_dec r (INR m)) as [E|E].
  - exists m. lra.
  - exists (S m). rewrite S_INR. lra.
Qed.

(** What [binomialcdf] returns, given what [binomial] returns at the
    naturals below [n]. *)
Lemma binomialcdf_returns (n x : R) (p : num) (w : nat -> value) (K : nat) :
  0 <= x -> n <= INR K < n + 1 ->
  (forall j, (j < K)%nat ->
     returns (fun fuel => binomial fuel (Fin n) p (Fin (INR j))) (w j)) ->
  (x < n -> forall m : nat, INR m <= x < INR m + 1 ->
     returns (fun fuel => binomialcdf fuel (Fin n) p (Fin x))
       (sum_upto (fun j => to_number (w j)) m)) /\
  (n <= x -> returns (fun fuel => binomialcdf fuel (Fin n) p (Fin x)) (Fin 1)).
Proof.
  intros Hx HK Hw. destruct (returns_below _ _ _ Hw) as [N HN].
  assert (Hfill : forall fuel, (Nat.max N (S K) <= fuel)%nat ->
            exists arr,
              fill_loop fuel (binomial fuel (Fin n) p) (Fin n) (Fin 0, [])
              = Some (Fin (INR K), arr) /\
              forall i, (i < K)%nat -> arr_get arr (Fin (INR i)) = w i).
  { intros fuel Hle.
    destruct (fill_loop_run (binomial fuel (Fin n) p) w n K HK) with
      (d := K) (j := 0%nat) (r := 0) (arr := @nil (num * value))
      as (arr & Hrun & Hnew & _); [|reflexivity|lia|].
    - intros j Hj. apply HN; [lia|exact Hj].
    - exists arr. split; [|intros i Hi; apply Hnew; lia].
      assert (Hfu : (S K <= fuel)%nat) by lia.
      exact (fill_loop_mono2 _ _ _ _ _ _ _ (fun _ _ H => H) Hfu Hrun). }
  split.
  - intros Hxn m Hm.
    assert (HmK : (m < K)%nat).
    { apply INR_lt. lra. }
    exists (Nat.max (Nat.max N (S K)) (S (S m))). intros fuel Hle.
    destruct (Hfill fuel) as (arr & Hrun & Harr); [lia|].
    rewrite binomialcdf_unfold. simpl num_lt. rtest. rewrite Hrun. simpl.
    assert (Hsum : sum_loop (S (S m)) (fun i => Some (arr_get arr i)) (Fin x)
                     (Fin 0, Fin 0)
                   = Some (Fin (INR (S m)),
                           sum_upto (fun j => to_number (w j)) m)).
    { apply (sum_loop_run _ (fun j => to_number (w j)) x m Hm);
        [|reflexivity|lia].
      intros j Hj. eexists. split; [reflexivity|].
      rewrite Harr by lia. reflexivity. }
    assert (Hfu : (S (S m) <= fuel)%nat) by lia.
    rewrite (sum_loop_mono2 _ _ _ _ _ _ _ (fun _ _ H => H) Hfu Hsum).
    reflexivity.
  - intros Hnx. exists (Nat.max N (S K)). intros fuel Hle.
    destruct (Hfill fuel Hle) as (arr & Hrun & _).
    rewrite binomialcdf_unfold. simpl num_lt. rtest. rewrite Hrun.
    reflexivity.
Qed.

End BinomialCdf.

(** ** The cumulative functions as instances of [sumFunc] *)

Section Cumulative.

Import jstat.

Lemma nonneg_not_lt (x : num) :
  num_le (Fin 0) x = true -> num_lt x (Fin 0) = false.
Proof.
  destruct x as [| | |r]; try reflexivity; try discriminate.
  intros H. apply num_le_fin in H. now apply Rltb_false.
Qed.

Lemma negbincdf_sumFunc (fuel : nat) (r p x : num) :
  num_le (Fin 0) x = true ->
  negbincdf fuel r p x = sumFunc fuel (negbin fuel r p) (Fin 0) x.
Proof. intros H. unfold negbincdf. now rewrite (nonneg_not_lt x H). Qed.

Lemma hypgeomcdf_sumFunc (fuel : nat) (N m n x : num) :
  num_le (Fin 0) x = true ->
  hypgeomcdf fuel N m n x = sumFunc fuel (hypgeom fuel N m n) (Fin 0) x.
Proof. intros H. unfold hypgeomcdf. now rewrite (nonneg_not_lt x H). Qed.

Lemma poissoncdf_sumFunc (fuel : nat) (l x : num) :
  num_le (Fin 0) x = true ->
  poissoncdf fuel l x = sumFunc fuel (poisson fuel l) (Fin 0) x.
Proof. intros H. unfold poissoncdf. now rewrite (nonneg_not_lt x H). Qed.

(** With an infinite number of trials neither [binomialcdf] nor the
    summation of [binomial] returns. *)
Lemma binomial_PInf (fuel : nat) (p k : num) : binomial fuel PInf p k = None.
Proof. unfold binomial, combination. now rewrite factorial_PInf. Qed.

Lemma binomialcdf_PInf (fuel : nat) (p x : num) :
  num_le (Fin 0) x = true -> binomialcdf fuel PInf p x = None.
Proof.
  intros H. rewrite binomialcdf_unfold, (nonneg_not_lt x H).
  destruct fuel as [|fuel]; [reflexivity|].
  unfold fill_loop. rewrite while_unfold. simpl num_lt. cbv iota.
  now rewrite binomial_PInf.
Qed.

Lemma sumFunc_binomial_PInf (fuel : nat) (p x : num) :
  num_le (Fin 0) x = true ->
  sumFunc fuel (binomial fuel PInf p) (Fin 0) x = None.
Proof.
  intros H. rewrite sumFunc_unfold.
  destruct fuel as [|fuel]; [reflexivity|].
  unfold sum_loop. rewrite while_unfold, H. now rewrite binomial_PInf.
Qed.

Lemma not_returns_None {A : Type} (f : nat -> option A) (v : A) :
  (forall fuel, f fuel = None) -> ~ returns f v.
Proof. intros H [n Hn]. specialize (Hn n (le_n n)). congruence. Qed.

(** Below a finite [n], [binomialcdf] and the summation of [binomial]
    return the same sum of the pmf values at [0, 1, ..., floor x]. *)
Lemma binomialcdf_sumFunc_fin (n x : R) (p : num) (m : nat) :
  0 <= x < n -> INR m <= x < INR m + 1 ->
  exists w : nat -> value,
    (forall j, (j <= m)%nat ->
       returns (fun fuel => binomial fuel (Fin n) p (Fin (INR j))) (w j)) /\
    returns (fun fuel => binomialcdf fuel (Fin n) p (Fin x))
      (sum_upto (fun j => to_number (w j)) m) /\
    returns (fun fuel => sumFunc fuel (binomial fuel (Fin n) p) (Fin 0) (Fin x))
      (sum_upto (fun j => to_number (w j)) m).
Proof.
  intros Hx Hm. destruct (nat_ceil n) as [K HK]; [lra|].
  assert (HmK : (m < K)%nat) by (apply INR_lt; lra).
  destruct (choice_upto
              (fun j v =>
                 returns (fun fuel => binomial fuel (Fin n) p (Fin (INR j))) v) K)
    as [w Hw]; [intros j _; apply binomial_total|].
  exists w. split; [intros j Hj; apply Hw; lia|]. split.
  - apply (binomialcdf_returns n x p w K); try lra.
    intros j Hj. apply Hw. lia.
  - apply (sumFunc_returns (fun fuel => binomial fuel (Fin n) p) w x m Hm).
    intros j Hj. apply Hw. lia.
Qed.

End Cumulative.

Section CumulativeClaims.

Import jstat.

(** A cumulative function that is a summation of a returning pmf returns
    the sum of the pmf values at [0, 1, ..., floor x]. *)
Lemma cdf_returns_sum (pmf : nat -> num -> option value)
    (cdf : nat -> option num) (x : R) (m : nat) :
  (forall fuel, cdf fuel = sumFunc fuel (pmf fuel) (Fin 0) (Fin x)) ->
  (forall j : nat, exists v, returns (fun fuel => pmf fuel (Fin (INR j))) v) ->
  INR m <= x < INR m + 1 ->
  exists w : nat -> value,
    (forall j, (j <= m)%nat ->
       returns (fun fuel => pmf fuel (Fin (INR j))) (w j)) /\
    returns cdf (sum_upto (fun j => to_number (w j)) m) /\
    returns (fun fuel => sumFunc fuel (pmf fuel) (Fin 0) (Fin x))
      (sum_upto (fun j => to_number (w j)) m).
Proof.
  intros Hcdf Hp Hm.
  destruct (choice_upto
              (fun j v => returns (fun fuel => pmf fuel (Fin (INR j))) v) m)
    as [w Hw]; [intros j _; apply Hp|].
  pose proof (sumFunc_returns pmf w x m Hm Hw) as Hs.
  exists w. split; [exact Hw|]. split; [|exact Hs].
  destruct Hs as [N HN]. exists N. intros fuel Hle.
  rewrite Hcdf. now apply HN.
Qed.

(** C9.  For every [x >= 0] and all parameters, [negbincdf], [hypgeomcdf]
    and [poissoncdf] are, fuel for fuel, [sumFunc] applied to their pmf over
    [0 .. x]; and for [x < n], [binomialcdf n p x] returns exactly what
    [sumFunc] of [binomial n p] over [0 .. x] returns.  On finite arguments
    these calls do return: the value is the sum of what the pmf returns at
    [k = 0, 1, ..., floor x]. *)
Theorem cdfs_are_sumFunc (x : num) :
  num_le (Fin 0) x = true ->
  (forall (fuel : nat) (r p : num),
      negbincdf fuel r p x = sumFunc fuel (negbin fuel r p) (Fin 0) x) /\
  (forall (fuel : nat) (N m n : num),
      hypgeomcdf fuel N m n x = sumFunc fuel (hypgeom fuel N m n) (Fin 0) x) /\
  (forall (fuel : nat) (l : num),
      poissoncdf fuel l x = sumFunc fuel (poisson fuel l) (Fin 0) x) /\
  (forall n p : num, num_lt x n = true ->
     forall v : num,
       returns (fun fuel => binomialcdf fuel n p x) v <->
       returns (fun fuel => sumFunc fuel (binomial fuel n p) (Fin 0) x) v) /\
  (forall (xr : R) (k : nat), x = Fin xr -> INR k <= xr < INR k + 1 ->
     (forall (r : R) (p : num), exists w : nat -> value,
         (forall j, (j <= k)%nat ->
            returns (fun fuel => negbin fuel (Fin r) p (Fin (INR j))) (w j)) /\
         returns (fun fuel => negbincdf fuel (Fin r) p x)
           (sum_upto (fun j => to_number (w j)) k) /\
         returns (fun fuel => sumFunc fuel (negbin fuel (Fin r) p) (Fin 0) x)
           (sum_upto (fun j => to_number (w j)) k)) /\
     (forall N m n : R, exists w : nat -> value,
         (forall j, (j <= k)%nat ->
            returns (fun fuel =>
                       hypgeom fuel (Fin N) (Fin m) (Fin n) (Fin (INR j))) (w j)) /\
         returns (fun fuel => hypgeomcdf fuel (Fin N) (Fin m) (Fin n) x)
           (sum_upto (fun j => to_number (w j)) k) /\
         returns (fun fuel =>
                    sumFunc fuel (hypgeom fuel (Fin N) (Fin m) (Fin n)) (Fin 0) x)
           (sum_upto (fun j => to_number (w j)) k)) /\
     (forall l : num, exists w : nat -> value,
         (forall j, (j <= k)%nat ->
            returns (fun fuel => poisson fuel l (Fin (INR j))) (w j)) /\
         returns (fun fuel => poissoncdf fuel l x)
           (sum_upto (fun j => to_number (w j)) k) /\
         returns (fun fuel => sumFunc fuel (poisson fuel l) (Fin 0) x)
           (sum_upto (fun j => to_number (w j)) k)) /\
     (forall (n : R) (p : num), xr < n -> exists w : nat -> value,
         (forall j, (j <= k)%nat ->
            returns (fun fuel => binomial fuel (Fin n) p (Fin (INR j))) (w j)) /\
         returns (fun fuel => binomialcdf fuel (Fin n) p x)
           (sum_upto (fun j => to_number (w j)) k) /\
         returns (fun fuel => sumFunc fuel (binomial fuel (Fin n) p) (Fin 0) x)
           (sum_upto (fun j => to_number (w j)) k))).
Proof.
  intros Hx. split; [|split; [|split; [|split]]].
  - intros fuel r p. now apply negbincdf_sumFunc.
  - intros fuel N m n. now apply hypgeomcdf_sumFunc.
  - intros fuel l. now apply poissoncdf_sumFunc.
  - intros n p Hxn v. destruct n as [| | |nr].
    + destruct x; discriminate.
    + split; intros H; exfalso; revert H; apply not_returns_None; intros fuel.
      * now apply binomialcdf_PInf.
      * now apply sumFunc_binomial_PInf.
    + destruct x; discriminate.
    + destruct x as [| | |xr]; try discriminate.
      apply num_le_fin in Hx. apply Rltb_spec in Hxn.
      destruct (nat_floor xr Hx) as [m Hm].
      destruct (binomialcdf_sumFunc_fin nr xr p m (conj Hx Hxn) Hm)
        as (w & _ & Hc & Hs).
      split; intros H.
      * now rewrite (returns_unique _ _ _ H Hc).
      * now rewrite (returns_unique _ _ _ H Hs).
  - intros xr k -> Hk. apply num_le_fin in Hx. split; [|split; [|split]].
    + intros r p.
      apply (cdf_returns_sum (fun fuel => negbin fuel (Fin r) p)); [| |exact Hk].
      * intros fuel. apply negbincdf_sumFunc. now apply num_le_fin_true.
      * intros j. apply negbin_total.
    + intros N m n.
      apply (cdf_returns_sum (fun fuel => hypgeom fuel (Fin N) (Fin m) (Fin n)));
        [| |exact Hk].
      * intros fuel. apply hypgeomcdf_sumFunc. now apply num_le_fin_true.
      * intros j. apply hypgeom_total.
    + intros l.
      apply (cdf_returns_sum (fun fuel => poisson fuel l)); [| |exact Hk].
      * intros fuel. apply poissoncdf_sumFunc. now apply num_le_fin_true.
      * intros j. apply poisson_total.
    + intros n p Hn. apply binomialcdf_sumFunc_fin; [lra|exact Hk].
Qed.

Lemma cdfs_are_sumFunc_witness :
  (forall (fuel : nat) (r p : num),
      negbincdf fuel r p (Fin 1.5)
      = sumFunc fuel (negbin fuel r p) (Fin 0) (Fin 1.5)) /\
  (forall (fuel : nat) (l : num),
      poissoncdf fuel l (Fin 1.5)
      = sumFunc fuel (poisson fuel l) (Fin 0) (Fin 1.5)) /\
  (forall v : num,
      returns (fun fuel => binomialcdf fuel (Fin 5) (Fin 0.5) (Fin 1.5)) v <->
      returns (fun fuel =>
                 sumFunc fuel (binomial fuel (Fin 5) (Fin 0.5)) (Fin 0) (Fin 1.5))
        v) /\
  (exists w : nat -> value,
      (forall j, (j <= 1)%nat ->
         returns (fun fuel => binomial fuel (Fin 5) (Fin 0.5) (Fin (INR j)))
           (w j)) /\
      returns (fun fuel => binomialcdf fuel (Fin 5) (Fin 0.5) (Fin 1.5))
        (sum_upto (fun j => to_number (w j)) 1) /\
      returns (fun fuel =>
                 sumFunc fuel (binomial fuel (Fin 5) (Fin 0.5)) (Fin 0) (Fin 1.5))
        (sum_upto (fun j => to_number (w j)) 1)).
Proof.
  destruct (cdfs_are_sumFunc (Fin 1.5)) as (Hn & _ & Hp & Hb & Hfin).
  { apply num_le_fin_true. lra. }
  split; [exact Hn|]. split; [exact Hp|]. split.
  - apply Hb. apply Rltb_true. lra.
  - destruct (Hfin 1.5 1%nat eq_refl) as (_ & _ & _ & Hbin).
    { simpl. lra. }
    apply (Hbin 5 (Fin 0.5)). lra.
Defined.

End CumulativeClaims.

(** ** The binomial pmf and its cumulative sums *)

Section BinomialPmf.

Import jstat.

(** [Math.pow] at a natural exponent is the iterated product. *)
Lemma Math_pow_nat (p : R) (k : nat) :
  Math.pow (Fin p) (Fin (INR k)) = Fin (p ^ k).
Proof.
  unfold Math.pow. destruct k as [|k].
  - simpl INR. rtest. reflexivity.
  - pose proof (pos_INR k). rewrite S_INR. rewrite Reqb_false by lra.
    destruct (Req_dec_T p 0) as [->|Hp].
    + rtest. rewrite pow_i by lia. reflexivity.
    + rewrite Reqb_false by assumption. rewrite <- S_INR.
      rewrite is_integer_INR, Int_part_INR. now rewrite <- pow_powerRZ.
Qed.

Lemma combination_nat (n k : nat) :
  (k <= n)%nat ->
  returns (fun fuel => combination fuel (Fin (INR n)) (Fin (INR k)))
    (Fin (C n k)).
Proof.
  intros Hk. exists (S n). intros fuel Hle. unfold combination.
  rewrite !factorial_nat by lia. cbn [bind].
  replace (num_sub (Fin (INR n)) (Fin (INR k))) with (Fin (INR (n - k)))
    by (simpl; now rewrite minus_INR).
  rewrite factorial_nat by lia. cbn [bind].
  pose proof (INR_fact_neq_0 k). pose proof (INR_fact_neq_0 (n - k)).
  rewrite !num_div_fin by assumption. do 2 f_equal. unfold C. now field.
Qed.

(** The value of the binomial pmf at a natural [k <= n]. *)
Lemma binomial_nat (n k : nat) (p : R) :
  (k <= n)%nat ->
  returns (fun fuel => binomial fuel (Fin (INR n)) (Fin p) (Fin (INR k)))
    (VNum (Fin (C n k * p ^ k * (1 - p) ^ (n - k)))).
Proof.
  intros Hk. destruct (combination_nat n k Hk) as [N HN].
  exists N. intros fuel Hle. unfold binomial. rewrite (HN fuel Hle). cbn [bind].
  replace (num_sub (Fin (INR n)) (Fin (INR k))) with (Fin (INR (n - k)))
    by (simpl; now rewrite minus_INR).
  change (num_sub (Fin 1) (Fin p)) with (Fin (1 - p)).
  now rewrite !Math_pow_nat.
Qed.

Lemma sum_upto_S (g : nat -> num) (m : nat) :
  sum_upto g (S m) = num_add (sum_upto g m) (g (S m)).
Proof. unfold sum_upto. now rewrite (seq_S (S m)), fold_left_app. Qed.

Lemma sum_upto_fin (g : nat -> R) (m : nat) :
  sum_upto (fun j => Fin (g j)) m = Fin (sum_f_R0 g m).
Proof.
  induction m as [|m IH].
  - unfold sum_upto. simpl. f_equal. lra.
  - now rewrite sum_upto_S, IH.
Qed.

(** The binomial theorem at [p + (1 - p) = 1]. *)
Lemma binomial_pmf_total (n : nat) (p : R) :
  sum_f_R0 (fun k => C n k * p ^ k * (1 - p) ^ (n - k)) n = 1.
Proof.
  rewrite <- Stdlib.Reals.Binomial.binomial.
  replace (p + (1 - p)) with 1 by lra. apply pow1.
Qed.

(** [binomialcdf] and the summation of [binomial] at naturals [x <= n]. *)
Lemma binomialcdf_nat (n x : nat) (p : R) :
  (x <= n)%nat ->
  returns (fun fuel => binomialcdf fuel (Fin (INR n)) (Fin p) (Fin (INR x)))
    (Fin (sum_f_R0 (fun k => C n k * p ^ k * (1 - p) ^ (n - k)) x)) /\
  returns (fun fuel =>
             sumFunc fuel (binomial fuel (Fin (INR n)) (Fin p)) (Fin 0)
               (Fin (INR x)))
    (Fin (sum_f_R0 (fun k => C n k * p ^ k * (1 - p) ^ (n - k)) x)) /\
  (x = n ->
   returns (fun fuel => binomialcdf fuel (Fin (INR n)) (Fin p) (Fin (INR x)))
     (Fin 1)).
Proof.
  intros Hx.
  set (term := fun k => C n k * p ^ k * (1 - p) ^ (n - k)).
  set (w := fun k => VNum (Fin (term k))).
  assert (Hw : forall k, (k <= n)%nat ->
             returns (fun fuel =>
                        binomial fuel (Fin (INR n)) (Fin p) (Fin (INR k))) (w k)).
  { intros k Hk. now apply binomial_nat. }
  pose proof (pos_INR x) as Hx0.
  assert (HK : INR n <= INR n < INR n + 1) by lra.
  assert (Hm : INR x <= INR x < INR x + 1) by lra.
  destruct (binomialcdf_returns (INR n) (INR x) (Fin p) w n Hx0 HK)
    as [Hlt Hge]; [intros j Hj; apply Hw; lia|].
  assert (Hsum : sum_upto (fun j => to_number (w j)) x = Fin (sum_f_R0 term x)).
  { apply (sum_upto_fin term). }
  assert (Hone : x = n ->
            returns (fun fuel =>
                       binomialcdf fuel (Fin (INR n)) (Fin p) (Fin (INR x)))
              (Fin 1)).
  { intros ->. apply Hge. lra. }
  split; [|split; [|exact Hone]].
  - destruct (Nat.eq_dec x n) as [E|E].
    + replace (sum_f_R0 term x) with 1; [now apply Hone|].
      subst x. symmetry. apply binomial_pmf_total.
    + rewrite <- Hsum. apply Hlt; [|exact Hm]. apply lt_INR. lia.
  - rewrite <- Hsum.
    apply (sumFunc_returns (fun fuel => binomial fuel (Fin (INR n)) (Fin p))
             w (INR x) x Hm).
    intros j Hj. apply Hw. lia.
Qed.

Lemma C_pos (n k : nat) : 0 < C n k.
Proof.
  unfold C. apply Rdiv_lt_0_compat; [apply INR_fact_lt_0|].
  apply Rmult_lt_0_compat; apply INR_fact_lt_0.
Qed.

Lemma binomial_term_nonneg (n k : nat) (p : R) :
  0 <= p <= 1 -> 0 <= C n k * p ^ k * (1 - p) ^ (n - k).
Proof.
  intros Hp. pose proof (C_pos n k).
  apply Rmult_le_pos; [apply Rmult_le_pos; [lra|] |]; apply pow_le; lra.
Qed.

Lemma sum_f_R0_nonneg_le (f : nat -> R) (x n : nat) :
  (forall k, 0 <= f k) -> (x <= n)%nat ->
  0 <= sum_f_R0 f x <= sum_f_R0 f n.
Proof.
  intros Hf Hx. split.
  - clear Hx. induction x as [|x IH]; simpl; [apply Hf|].
    pose proof (Hf (S x)). lra.
  - induction Hx as [|n Hx IH]; [lra|]. simpl. pose proof (Hf (S n)). lra.
Qed.

(** With [n] natural and [p] a probability, [binomialcdf] is a probability
    at every finite point. *)
Lemma binomialcdf_unit (n : nat) (p x : R) :
  0 <= p <= 1 ->
  exists r : R,
    returns (fun fuel => binomialcdf fuel (Fin (INR n)) (Fin p) (Fin x)) (Fin r)
    /\ 0 <= r <= 1.
Proof.
  intros Hp.
  set (term := fun k => C n k * p ^ k * (1 - p) ^ (n - k)).
  assert (Hterm : forall k, 0 <= term k)
    by (intros k; now apply binomial_term_nonneg).
  destruct (Rlt_dec x 0) as [Hneg|Hneg].
  { exists 0. split; [|lra]. exists 0%nat. intros fuel _.
    unfold binomialcdf. simpl num_lt. now rewrite Rltb_true. }
  assert (Hx : 0 <= x) by lra.
  assert (HK : INR n <= INR n < INR n + 1) by lra.
  destruct (binomialcdf_returns (INR n) x (Fin p)
              (fun k => VNum (Fin (term k))) n Hx HK) as [Hlt Hge].
  { intros j Hj. apply binomial_nat. lia. }
  destruct (Rlt_dec x (INR n)) as [Hxn|Hxn].
  - destruct (nat_floor x Hx) as [m Hm].
    assert (Hmn : (m <= n)%nat) by (apply INR_le; lra).
    exists (sum_f_R0 term m). split.
    + rewrite <- (sum_upto_fin term). now apply Hlt.
    + pose proof (sum_f_R0_nonneg_le term m n Hterm Hmn) as Hb.
      pose proof (binomial_pmf_total n p) as Htot. fold term in Htot. lra.
  - exists 1. split; [apply Hge; lra | lra].
Qed.

End BinomialPmf.

Section BinomialClaims.

Import jstat.



End BinomialClaims.

(** ** Worked values *)

Section WorkedValues.

Import jstat.

Lemma INR_5 : INR 5 = 5.
Proof. simpl. lra. Qed.

Lemma INR_2 : INR 2 = 2.
Proof. simpl. lra. Qed.

(** Evaluates binomial coefficients and powers at numerals. *)
Ltac calc := unfold C; rewrite ?INR_IZR_INZ; simpl; lra.

Example factorial_5 : returns (fun fuel => factorial fuel (Fin 5)) (Fin 120).
Proof.
  replace 120 with (INR (fact 5)) by (simpl; lra). rewrite <- INR_5.
  apply factorial_nat_returns.
Qed.

Example factorial_0 : returns (fun fuel => factorial fuel (Fin 0)) (Fin 1).
Proof. apply (factorial_nat_returns 0). Qed.

Example gamma_6 : returns (fun fuel => gamma fuel (Fin 6)) (Fin 120).
Proof.
  exists 7%nat. intros [|fuel] Hle; [lia|]. rewrite gamma_int.
  - replace (num_sub (Fin 6) (Fin 1)) with (Fin (INR 5))
      by (simpl; f_equal; lra).
    replace 120 with (INR (fact 5)) by (simpl; lra).
    apply factorial_nat. lia.
  - rewrite num_eq_floor_fin. apply (is_integer_IZR 6).
Qed.

Example combination_5_2 :
  returns (fun fuel => combination fuel (Fin 5) (Fin 2)) (Fin 10).
Proof.
  replace 10 with (C 5 2) by calc.
  rewrite <- INR_5, <- INR_2. apply combination_nat. lia.
Qed.

Example binomial_5_half_2 :
  returns (fun fuel => binomial fuel (Fin 5) (Fin 0.5) (Fin 2))
    (VNum (Fin 0.3125)).
Proof.
  replace 0.3125 with (C 5 2 * 0.5 ^ 2 * (1 - 0.5) ^ (5 - 2))
    by calc.
  rewrite <- INR_5, <- INR_2. apply binomial_nat. lia.
Qed.

Example binomialcdf_5_half_2 :
  returns (fun fuel => binomialcdf fuel (Fin 5) (Fin 0.5) (Fin 2)) (Fin 0.5).
Proof.
  destruct (binomialcdf_nat 5 2 0.5) as [H _]; [lia|].
  rewrite INR_5, INR_2 in H.
  replace (sum_f_R0 (fun k => C 5 k * 0.5 ^ k * (1 - 0.5) ^ (5 - k)) 2)
    with 0.5 in H by calc.
  exact H.
Qed.

End WorkedValues.

(** * Further properties of the library *)

(** ** Termination and the shape of [gamma] *)

Section GammaShape.

Import jstat.







End GammaShape.

Section GammaProperties.

Import jstat.











(** At zero and at every negative integer, [gamma] returns
    not-a-number: the integer shortcut calls [factorial] on a negative
    argument. *)
Theorem gamma_nonpositive_integer (k : nat) :
  returns (fun fuel => gamma fuel (Fin (- INR k))) NaN.
Proof.
  exists 2%nat. intros [|[|fuel]] Hf; try lia.
  rewrite gamma_int.
  - simpl factorial. apply factorial_body_negative.
    pose proof (pos_INR k). simpl. apply Rltb_true. lra.
  - rewrite num_eq_floor_fin, INR_IZR_INZ, <- opp_IZR. apply is_integer_IZR.
Qed.

End GammaProperties.

(** ** Counting functions *)

Section Combinatorics.

Import jstat.

Lemma sub_nat_fin (n k : nat) :
  (k <= n)%nat ->
  num_sub (Fin (INR n)) (Fin (INR k)) = Fin (INR (n - k)).
Proof. intros H. simpl. now rewrite minus_INR. Qed.

Lemma sub_nat_neg (n k : nat) :
  (n < k)%nat ->
  num_lt (num_sub (Fin (INR n)) (Fin (INR k))) (Fin 0) = true.
Proof.
  intros H. simpl. apply Rltb_true. apply lt_INR in H. lra.
Qed.




(** X6.  Out of range the counting functions do not answer [0]: for
    naturals [k > n], [combination n k] and [permutation n k] return
    not-a-number, and so does the binomial pmf [binomial n p k] for
    every [p]. *)
Theorem counting_out_of_range (n k : nat) (p : num) :
  (n < k)%nat ->
  returns (fun fuel => combination fuel (Fin (INR n)) (Fin (INR k))) NaN /\
  returns (fun fuel => permutation fuel (Fin (INR n)) (Fin (INR k))) NaN /\
  returns (fun fuel => binomial fuel (Fin (INR n)) p (Fin (INR k))) (VNum NaN).
Proof.
  intros Hk. pose proof (sub_nat_neg n k Hk) as Hneg.
  assert (Hf : forall fuel, (k < fuel)%nat ->
            factorial fuel (num_sub (Fin (INR n)) (Fin (INR k))) = Some NaN).
  { intros [|fuel] Hf; [lia|]. simpl factorial.
    now apply factorial_body_negative. }
  assert (Hc : forall fuel, (k < fuel)%nat ->
            combination fuel (Fin (INR n)) (Fin (INR k)) = Some NaN).
  { intros fuel Hle. unfold combination.
    rewrite !factorial_nat by lia. cbn [bind]. rewrite Hf by lia. cbn [bind].
    rewrite num_div_fin by apply INR_fact_neq_0. reflexivity. }
  split; [|split]; exists (S k); intros fuel Hle.
  - apply Hc. lia.
  - unfold permutation. rewrite factorial_nat by lia. cbn [bind].
    rewrite Hf by lia. reflexivity.
  - unfold binomial. rewrite Hc by lia. reflexivity.
Qed.

Lemma counting_out_of_range_witness :
  returns (fun fuel => combination fuel (Fin (INR 2)) (Fin (INR 3))) NaN /\
  returns (fun fuel => permutation fuel (Fin (INR 2)) (Fin (INR 3))) NaN /\
  returns (fun fuel => binomial fuel (Fin (INR 2)) (Fin 0.5) (Fin (INR 3)))
    (VNum NaN).
Proof. apply (counting_out_of_range 2 3 (Fin 0.5)). lia. Defined.



End Combinatorics.

(** ** The continuous cumulative functions *)

Section ContinuousCdf.

Import jstat.




(** With finite bounds in the wrong order or equal ([b <= a]),
    [uniformcdf] is the step at [a]: [0] below [a] and [1] from [a] on; the
    division is not reached. *)
Theorem uniformcdf_reversed_bounds (a b x : R) :
  b <= a ->
  uniformcdf (Fin a) (Fin b) (Fin x) = if Rlt_dec x a then Fin 0 else Fin 1.
Proof.
  intros Hba. unfold uniformcdf. simpl num_lt.
  destruct (Rlt_dec x a) as [H|H].
  - now rewrite Rltb_true.
  - now rewrite !Rltb_false by lra.
Qed.

Lemma uniformcdf_reversed_bounds_witness :
  uniformcdf (Fin 2) (Fin 0) (Fin 1) = if Rlt_dec 1 2 then Fin 0 else Fin 1.
Proof. apply (uniformcdf_reversed_bounds 2 0 1). lra. Defined.



End ContinuousCdf.

(** ** The binomial distribution *)

Section BinomialShape.

Import jstat.









End BinomialShape.

(** ** The negative binomial distribution *)

Section NegativeBinomial.

Import jstat.


(** The negative binomial weights [C(k + s, s) q^k] and their sums. *)
Lemma C_n_0 (n : nat) : C n 0 = 1.
Proof.
  unfold C. rewrite Nat.sub_0_r. simpl fact. simpl INR.
  pose proof (INR_fact_neq_0 n). now field.
Qed.

Lemma C_n_n (n : nat) : C n n = 1.
Proof.
  unfold C. rewrite Nat.sub_diag. simpl fact. simpl INR.
  pose proof (INR_fact_neq_0 n). now field.
Qed.




End NegativeBinomial.

Section NegativeBinomialProperties.

Import jstat.


Lemma num_div_NaN_r (x : num) : num_div x NaN = NaN.
Proof. now destruct x. Qed.





End NegativeBinomialProperties.

(** ** The Poisson distribution *)

Section Poisson.

Import jstat.








End Poisson.

(** ** [sumFunc] on arbitrary ranges *)

Section SumFuncRanges.

Import jstat.





End SumFuncRanges.

(** ** Cumulative functions between and below the integers *)

Section CdfShape.

Import jstat.

Lemma cdf_step_generic (pmf : nat -> num -> option value)
    (cdf : num -> nat -> option num) (x : R) (m : nat) :
  (forall (y : R) (fuel : nat), 0 <= y ->
     cdf (Fin y) fuel = sumFunc fuel (pmf fuel) (Fin 0) (Fin y)) ->
  (forall j : nat, exists v, returns (fun fuel => pmf fuel (Fin (INR j))) v) ->
  INR m <= x < INR m + 1 ->
  exists v : num, returns (cdf (Fin x)) v /\ returns (cdf (Fin (INR m))) v.
Proof.
  intros Hcdf Hp Hm. pose proof (pos_INR m) as H0.
  destruct (choice_upto
              (fun j v => returns (fun fuel => pmf fuel (Fin (INR j))) v) m)
    as [w Hw]; [intros j _; apply Hp|].
  exists (sum_upto (fun j => to_number (w j)) m). split.
  - destruct (sumFunc_returns pmf w x m Hm Hw) as [N HN].
    exists N. intros fuel Hle. rewrite Hcdf by lra. now apply HN.
  - assert (Hm' : INR m <= INR m < INR m + 1) by lra.
    destruct (sumFunc_returns pmf w (INR m) m Hm' Hw) as [N HN].
    exists N. intros fuel Hle. rewrite Hcdf by lra. now apply HN.
Qed.

(** X17.  The summing cumulative functions are step functions: at a
    finite [x >= 0] with finite parameters, [negbincdf], [hypgeomcdf] and
    [poissoncdf] return what they return at [floor x] (whereas the pmfs
    [negbin] and [hypgeom] reject a non-integer [x]). *)
Theorem cdf_constant_between_integers (x : R) (m : nat) :
  INR m <= x < INR m + 1 ->
  (forall (r : R) (p : num), exists v : num,
      returns (fun fuel => negbincdf fuel (Fin r) p (Fin x)) v /\
      returns (fun fuel => negbincdf fuel (Fin r) p (Fin (INR m))) v) /\
  (forall N k n : R, exists v : num,
      returns (fun fuel => hypgeomcdf fuel (Fin N) (Fin k) (Fin n) (Fin x)) v /\
      returns (fun fuel =>
                 hypgeomcdf fuel (Fin N) (Fin k) (Fin n) (Fin (INR m))) v) /\
  (forall l : num, exists v : num,
      returns (fun fuel => poissoncdf fuel l (Fin x)) v /\
      returns (fun fuel => poissoncdf fuel l (Fin (INR m))) v).
Proof.
  intros Hm. split; [|split].
  - intros r p.
    apply (cdf_step_generic (fun fuel => negbin fuel (Fin r) p)
             (fun y fuel => negbincdf fuel (Fin r) p y) x m); [| |exact Hm].
    + intros y fuel Hy. apply negbincdf_sumFunc. now apply num_le_fin_true.
    + intros j. apply negbin_total.
  - intros N k n.
    apply (cdf_step_generic (fun fuel => hypgeom fuel (Fin N) (Fin k) (Fin n))
             (fun y fuel => hypgeomcdf fuel (Fin N) (Fin k) (Fin n) y) x m);
      [| |exact Hm].
    + intros y fuel Hy. apply hypgeomcdf_sumFunc. now apply num_le_fin_true.
    + intros j. apply hypgeom_total.
  - intros l.
    apply (cdf_step_generic (fun fuel => poisson fuel l)
             (fun y fuel => poissoncdf fuel l y) x m); [| |exact Hm].
    + intros y fuel Hy. apply poissoncdf_sumFunc. now apply num_le_fin_true.
    + intros j. apply poisson_total.
Qed.

Lemma cdf_constant_between_integers_witness :
  exists v : num,
    returns (fun fuel => poissoncdf fuel (Fin 1) (Fin 2.5)) v /\
    returns (fun fuel => poissoncdf fuel (Fin 1) (Fin (INR 2))) v.
Proof.
  destruct (cdf_constant_between_integers 2.5 2) as (_ & _ & H).
  - simpl. lra.
  - exact (H (Fin 1)).
Defined.

(** Below the support the pmfs disagree: at a negative integer
    [-k], [negbin] and [hypgeom] return the number [0], while [poisson]
    and (with a finite [n]) [binomial] return not-a-number. *)
Theorem pmfs_at_negative_integers (k : nat) :
  (1 <= k)%nat ->
  (forall (fuel : nat) (r p : num),
      negbin fuel r p (Fin (- INR k)) = Some (VNum (Fin 0))) /\
  (forall (fuel : nat) (N m n : num),
      hypgeom fuel N m n (Fin (- INR k)) = Some (VNum (Fin 0))) /\
  (forall l : num,
      returns (fun fuel => poisson fuel l (Fin (- INR k))) (VNum NaN)) /\
  (forall (n : R) (p : num),
      returns (fun fuel => binomial fuel (Fin n) p (Fin (- INR k))) (VNum NaN)).
Proof.
  intros Hk.
  assert (Hpos : 1 <= INR k) by (change 1 with (INR 1); now apply le_INR).
  assert (Hint : num_ne (Fin (- INR k)) (Math.floor (Fin (- INR k))) = false).
  { rewrite num_ne_floor_fin, INR_IZR_INZ, <- opp_IZR, is_integer_IZR.
    reflexivity. }
  assert (Hneg : num_lt (Fin (- INR k)) (Fin 0) = true)
    by (apply Rltb_true; lra).
  assert (Hfact : returns (fun fuel => factorial fuel (Fin (- INR k))) NaN)
    by now apply factorial_negative_returns.
  split; [|split; [|split]].
  - intros fuel r p. unfold negbin. now rewrite Hint, Hneg.
  - intros fuel N m n. unfold hypgeom. now rewrite Hint, Hneg.
  - intros l. unfold poisson.
    apply (returns_bind _ _ NaN); [exact Hfact|].
    rewrite num_div_NaN_r. apply returns_const.
  - intros n p. unfold binomial, combination.
    destruct (factorial_total (Fin n)) as [v1 H1]; [discriminate|].
    destruct (factorial_total (num_sub (Fin n) (Fin (- INR k))))
      as [v3 H3]; [discriminate|].
    apply (returns_bind _ _ NaN); [|apply returns_const].
    apply (returns_bind _ _ v1); [exact H1|].
    apply (returns_bind _ _ NaN); [exact Hfact|].
    apply (returns_bind _ _ v3); [exact H3|].
    rewrite num_div_NaN_r. apply returns_const.
Qed.

Lemma pmfs_at_negative_integers_witness :
  negbin 0 (Fin 2) (Fin 0.5) (Fin (- INR 1)) = Some (VNum (Fin 0)) /\
  returns (fun fuel => poisson fuel (Fin 2) (Fin (- INR 1))) (VNum NaN).
Proof.
  destruct (pmfs_at_negative_integers 1) as (Hn & _ & Hp & _); [lia|].
  split; [apply Hn | apply Hp].
Defined.

End CdfShape.

(** ** Vandermonde's identity *)

Section Vandermonde.

Lemma choose_0 (n : nat) : choose n 0 = 1%nat.
Proof. now destruct n. Qed.

Lemma choose_gt (n : nat) : forall k, (n < k)%nat -> choose n k = 0%nat.
Proof.
  induction n as [|n IH]; intros [|k] H; try lia; simpl; [reflexivity|].
  rewrite !IH by lia. reflexivity.
Qed.

Lemma choose_diag (n : nat) : choose n n = 1%nat.
Proof.
  induction n as [|n IH]; [reflexivity|]. simpl.
  rewrite IH, choose_gt by lia. reflexivity.
Qed.

Lemma choose_C (n : nat) : forall k, (k <= n)%nat -> INR (choose n k) = C n k.
Proof.
  induction n as [|n IH]; intros [|k] Hk; try lia.
  - simpl. now rewrite C_n_0.
  - rewrite C_n_0. reflexivity.
  - change (choose (S n) (S k)) with (choose n k + choose n (S k))%nat.
    rewrite plus_INR. destruct (Nat.eq_dec k n) as [->|Hne].
    + rewrite choose_diag, choose_gt by lia. rewrite C_n_n. simpl. lra.
    + rewrite !IH by lia. apply pascal. lia.
Qed.

Lemma nsum_ext (f g : nat -> nat) (n : nat) :
  (forall k, (k <= n)%nat -> f k = g k) -> nsum f n = nsum g n.
Proof.
  induction n as [|n IH]; intros H; simpl.
  - apply H. lia.
  - rewrite IH, H by (intros; try apply H; lia). reflexivity.
Qed.

Lemma nsum_plus (f g : nat -> nat) (n : nat) :
  nsum (fun k => f k + g k)%nat n = (nsum f n + nsum g n)%nat.
Proof. induction n as [|n IH]; simpl; [reflexivity|]. rewrite IH. lia. Qed.

Lemma nsum_shift (f : nat -> nat) (n : nat) :
  nsum f (S n) = (f 0%nat + nsum (fun k => f (S k)) n)%nat.
Proof.
  induction n as [|n IH]; [reflexivity|].
  change (nsum f (S (S n))) with (nsum f (S n) + f (S (S n)))%nat.
  rewrite IH. simpl. lia.
Qed.

Lemma Vandermonde_nat (m M : nat) :
  forall n, nsum (fun k => choose m k * choose M (n - k))%nat n
            = choose (m + M) n.
Proof.
  induction m as [|m IH]; intros n.
  - destruct n as [|n].
    { cbn [nsum Nat.sub Nat.add]. rewrite !choose_0. reflexivity. }
    rewrite nsum_shift.
    rewrite (nsum_ext _ (fun _ => 0%nat)) by (intros; reflexivity).
    assert (Z0 : forall j, nsum (fun _ => 0%nat) j = 0%nat)
      by (induction j; simpl; lia).
    rewrite Z0, choose_0, Nat.sub_0_r. simpl. lia.
  - destruct n as [|n].
    { cbn [nsum Nat.sub]. rewrite !choose_0. reflexivity. }
    rewrite nsum_shift.
    rewrite (nsum_ext (fun k => choose (S m) (S k) * choose M (S n - S k))%nat
               (fun k => choose m k * choose M (n - k)
                         + choose m (S k) * choose M (S n - S k))%nat)
      by (intros k _; simpl; lia).
    rewrite nsum_plus, IH.
    specialize (IH (S n)). rewrite nsum_shift in IH.
    change (choose (S m + M) (S n))
      with (choose (m + M) n + choose (m + M) (S n))%nat.
    rewrite <- IH. rewrite !choose_0. lia.
Qed.

Lemma INR_nsum (f : nat -> nat) (n : nat) :
  INR (nsum f n) = sum_f_R0 (fun k => INR (f k)) n.
Proof.
  induction n as [|n IH]; simpl nsum; [reflexivity|].
  rewrite plus_INR, IH. reflexivity.
Qed.

(** Vandermonde's identity for the real binomial coefficients, when every
    term is in range. *)
Lemma Vandermonde_C (m M n : nat) :
  (n <= m)%nat -> (n <= M)%nat ->
  sum_f_R0 (fun k => C m k * C M (n - k)) n = C (m + M) n.
Proof.
  intros Hm HM. rewrite <- choose_C by lia. rewrite <- Vandermonde_nat.
  rewrite INR_nsum. apply sum_eq. intros k Hk.
  rewrite mult_INR, !choose_C by lia. reflexivity.
Qed.

End Vandermonde.

(** ** The hypergeometric distribution *)

Section Hypergeometric.

Import jstat.

Lemma num_mul_NaN_r (x : num) : num_mul x NaN = NaN.
Proof. now destruct x. Qed.

Lemma num_add_NaN_r (x : num) : num_add x NaN = NaN.
Proof. now destruct x. Qed.

Lemma combination_gt (n k : nat) :
  (n < k)%nat ->
  returns (fun fuel => combination fuel (Fin (INR n)) (Fin (INR k))) NaN.
Proof.
  intros Hk. unfold combination.
  apply (returns_bind _ _ _ _ (factorial_nat_returns n)).
  apply (returns_bind _ _ _ _ (factorial_nat_returns k)).
  apply (returns_bind _ _ NaN).
  - apply factorial_negative_returns. now apply sub_nat_neg.
  - rewrite num_div_NaN_r. apply returns_const.
Qed.

Lemma combination_neg (n k : R) :
  k < 0 -> returns (fun fuel => combination fuel (Fin n) (Fin k)) NaN.
Proof.
  intros Hk. unfold combination.
  destruct (factorial_total (Fin n)) as [v1 H1]; [discriminate|].
  destruct (factorial_total (num_sub (Fin n) (Fin k))) as [v3 H3];
    [discriminate|].
  apply (returns_bind _ _ v1); [exact H1|].
  apply (returns_bind _ _ NaN).
  - apply factorial_negative_returns. now apply Rltb_true.
  - apply (returns_bind _ _ v3); [exact H3|].
    rewrite num_div_NaN_r. apply returns_const.
Qed.


Lemma hypgeom_out_of_range (N m n k : nat) :
  (m <= N)%nat -> (m < k \/ n < k \/ N - m < n - k)%nat ->
  returns (fun fuel =>
             hypgeom fuel (Fin (INR N)) (Fin (INR m)) (Fin (INR n)) (Fin (INR k)))
    (VNum NaN).
Proof.
  intros HmN Hout. unfold hypgeom.
  rewrite num_ne_floor_fin, is_integer_INR. simpl negb. cbv iota.
  pose proof (pos_INR k). simpl num_lt. rtest.
  rewrite (sub_nat_fin N m HmN).
  destruct (combination_total (INR N) (INR n)) as [c3 H3].
  destruct (Nat.lt_ge_cases m k) as [Hmk|Hmk].
  { destruct (combination_total (INR (N - m)) (INR n - INR k)) as [c2 H2].
    apply (returns_bind _ _ _ _ (combination_gt m k Hmk)).
    apply (returns_bind _ _ c2); [exact H2|].
    apply (returns_bind _ _ c3); [exact H3|].
    destruct c2; apply returns_const. }
  destruct (combination_total (INR m) (INR k)) as [c1 H1].
  apply (returns_bind _ _ c1); [exact H1|].
  apply (returns_bind _ _ NaN).
  - destruct (Nat.lt_ge_cases n k) as [Hnk|Hnk].
    + apply combination_neg. apply lt_INR in Hnk. lra.
    + rewrite sub_nat_fin by assumption. apply combination_gt. lia.
  - apply (returns_bind _ _ c3); [exact H3|].
    rewrite num_mul_NaN_r. apply returns_const.
Qed.

Lemma sum_upto_NaN (g : nat -> num) (k m : nat) :
  (k <= m)%nat -> g k = NaN -> sum_upto g m = NaN.
Proof.
  intros Hk Hg. induction m as [|m IH].
  - replace k with 0%nat in Hg by lia. unfold sum_upto. simpl. now rewrite Hg.
  - rewrite sum_upto_S. destruct (Nat.eq_dec k (S m)) as [<-|Hne].
    + rewrite Hg. apply num_add_NaN_r.
    + rewrite IH by lia. reflexivity.
Qed.




End Hypergeometric.

Section HypergeometricProperties.

Import jstat.






(** X20.  [hypgeomcdf] is not-a-number as soon as one summand is out of
    range: for naturals with [m <= N], if some natural [k <= x] has
    [k > m], [k > n] or [n - k > N - m], it returns not-a-number at the
    finite point [x].  So it is not-a-number at every [x >= 0] when
    [n > N - m], and at every [x >= n + 1]. *)
Theorem hypgeomcdf_out_of_range (N m n k : nat) (x : R) :
  (m <= N)%nat -> INR k <= x ->
  (m < k \/ n < k \/ N - m < n - k)%nat ->
  returns (fun fuel =>
             hypgeomcdf fuel (Fin (INR N)) (Fin (INR m)) (Fin (INR n)) (Fin x))
    NaN.
Proof.
  intros HmN Hkx Hout. pose proof (pos_INR k) as Hk0.
  assert (Hx : 0 <= x) by lra.
  destruct (nat_floor x Hx) as [j Hj].
  assert (Hkj : (k <= j)%nat) by (apply INR_le; apply Rnot_lt_le; intros Hlt;
    apply INR_lt, Nat.le_succ_l, le_INR in Hlt; rewrite S_INR in Hlt; lra).
  destruct (choice_upto
              (fun i v =>
                 returns (fun fuel =>
                            hypgeom fuel (Fin (INR N)) (Fin (INR m)) (Fin (INR n))
                              (Fin (INR i))) v) j) as [w Hw].
  { intros i _. apply hypgeom_total. }
  assert (Hwk : w k = VNum NaN).
  { apply (returns_unique _ _ _ (Hw k Hkj)).
    now apply hypgeom_out_of_range. }
  destruct (sumFunc_returns
              (fun fuel => hypgeom fuel (Fin (INR N)) (Fin (INR m)) (Fin (INR n)))
              w x j Hj Hw) as [F HF].
  exists F. intros fuel Hle.
  rewrite hypgeomcdf_sumFunc by (now apply num_le_fin_true).
  rewrite (HF fuel Hle). f_equal.
  apply (sum_upto_NaN _ k j Hkj). now rewrite Hwk.
Qed.

Lemma hypgeomcdf_out_of_range_witness :
  returns (fun fuel =>
             hypgeomcdf fuel (Fin (INR 10)) (Fin (INR 8)) (Fin (INR 5)) (Fin 3))
    NaN.
Proof.
  apply (hypgeomcdf_out_of_range 10 8 5 0 3); [lia | simpl; lra | lia].
Defined.

End HypergeometricProperties.

(** * Descriptive statistics *)

(** ** Arrays of finite numbers *)

Section FiniteArrays.

Import jstat.

Lemma get_nat_fin (rs : list R) (i : nat) :
  (i < length rs)%nat -> get_nat (map Fin rs) i = VNum (Fin (nth i rs 0)).
Proof.
  intros Hi. unfold get_nat.
  rewrite nth_error_map, (nth_error_nth' rs 0 Hi). reflexivity.
Qed.

Lemma get_nat_out (a : list num) (i : nat) :
  (length a <= i)%nat -> get_nat a i = VUndef.
Proof.
  intros Hi. unfold get_nat. now rewrite (proj2 (nth_error_None a i) Hi).
Qed.

Lemma get_index (a : list num) (i : nat) :
  get a (Fin (INR i)) = get_nat a i.
Proof.
  unfold get. rewrite is_integer_INR, Int_part_INR, Nat2Z.id.
  pose proof (pos_INR i). now rewrite Rltb_false.
Qed.

Lemma get_negative (a : list num) (r : R) : r < 0 -> get a (Fin r) = VUndef.
Proof.
  intros Hr. unfold get. rewrite (Rltb_true r 0 Hr).
  now rewrite andb_false_r.
Qed.

Lemma Rsum_app (l l' : list R) : Rsum (l ++ l') = Rsum l + Rsum l'.
Proof.
  induction l as [|x l IH]; simpl; [unfold Rsum; simpl; lra|].
  unfold Rsum in *. simpl. rewrite IH. lra.
Qed.


Lemma map_nth_seq (g : R -> R) (l : list R) :
  map (fun i => g (nth i l 0)) (seq 0 (length l)) = map g l.
Proof.
  induction l as [|x l IH]; [reflexivity|].
  simpl. f_equal. rewrite <- seq_shift, map_map. exact IH.
Qed.

(** A downward accumulation of finite terms is their sum. *)
Lemma accumulate_down_fin (term : nat -> num) (t : nat -> R) (n : nat) :
  (forall i, (i < n)%nat -> term i = Fin (t i)) ->
  forall a : R,
    accumulate_down term n (Fin a) = Fin (a + Rsum (map t (seq 0 n))).
Proof.
  induction n as [|n IH]; intros Ht a.
  - simpl. f_equal. unfold Rsum. simpl. lra.
  - simpl accumulate_down. rewrite (Ht n) by lia. simpl num_add.
    rewrite IH by (intros i Hi; apply Ht; lia).
    rewrite seq_S, map_app, Rsum_app. f_equal. unfold Rsum. simpl. lra.
Qed.

(** Accumulating [F] of the elements of a finite array. *)
Lemma accumulate_elements (F : num -> num) (g : R -> R) (rs : list R) :
  (forall r, F (Fin r) = Fin (g r)) ->
  accumulate_down (fun i => F (to_number (get_nat (map Fin rs) i)))
    (length rs) (Fin 0)
  = Fin (Rsum (map g rs)).
Proof.
  intros HF.
  rewrite (accumulate_down_fin _ (fun i => g (nth i rs 0))).
  - rewrite map_nth_seq. f_equal. lra.
  - intros i Hi. rewrite get_nat_fin by assumption. apply HF.
Qed.

Lemma sum_fin (rs : list R) : sum (map Fin rs) = Fin (Rsum rs).
Proof.
  unfold sum. rewrite length_map.
  rewrite (accumulate_elements (fun x => x) (fun r => r)) by reflexivity.
  now rewrite map_id.
Qed.


End FiniteArrays.

(** ** [sum] and [mean] *)

Section SumMean.

Import jstat.







End SumMean.

(** ** Sorting finite numbers *)

Section Sorting.

Import jstat.

Lemma insert_fin (x : R) (l : list R) :
  insert arrSortF (Fin x) (map Fin l) = map Fin (Rinsert x l).
Proof.
  induction l as [|y l IH]; [reflexivity|].
  change (insert arrSortF (Fin x) (map Fin (y :: l)))
    with (if Rltb 0 (x + - y)
          then Fin y :: insert arrSortF (Fin x) (map Fin l)
          else Fin x :: map Fin (y :: l)).
  simpl Rinsert. destruct (Rlt_dec y x) as [H|H].
  - rewrite Rltb_true by lra. rewrite IH. reflexivity.
  - rewrite Rltb_false by lra. reflexivity.
Qed.

Lemma sort_fin (l : list R) :
  sort arrSortF (map Fin l) = map Fin (Rsort l).
Proof.
  induction l as [|x l IH]; [reflexivity|].
  change (sort arrSortF (map Fin (x :: l)))
    with (insert arrSortF (Fin x) (sort arrSortF (map Fin l))).
  rewrite IH. apply insert_fin.
Qed.

Lemma Rinsert_perm (x : R) (l : list R) : Permutation (x :: l) (Rinsert x l).
Proof.
  induction l as [|y l IH]; [reflexivity|]. simpl.
  destruct (Rlt_dec y x); [|reflexivity].
  rewrite perm_swap. now apply perm_skip.
Qed.

Lemma Rsort_perm (l : list R) : Permutation l (Rsort l).
Proof.
  induction l as [|x l IH]; [reflexivity|].
  unfold Rsort in *. simpl. rewrite <- Rinsert_perm. now apply perm_skip.
Qed.

Lemma Rinsert_sorted (x : R) (l : list R) :
  StronglySorted Rle l -> StronglySorted Rle (Rinsert x l).
Proof.
  induction 1 as [|y l Hs IH Hy]; simpl.
  - constructor; constructor.
  - destruct (Rlt_dec y x) as [H|H].
    + constructor; [exact IH|].
      apply (Permutation_Forall (Rinsert_perm x l)).
      constructor; [lra | exact Hy].
    + constructor; [now constructor|].
      constructor; [lra|].
      apply Forall_impl with (P := Rle y); [intros; lra | exact Hy].
Qed.

Lemma Rsort_sorted (l : list R) : StronglySorted Rle (Rsort l).
Proof.
  induction l as [|x l IH]; [constructor|].
  unfold Rsort in *. simpl. now apply Rinsert_sorted.
Qed.

Lemma Rsort_length (l : list R) : length (Rsort l) = length l.
Proof. symmetry. apply Permutation_length, Rsort_perm. Qed.

(** Two sorted lists with the same elements are the same list: the
    sorted copy is independent of the sorting method. *)
Lemma sorted_perm_eq (l l' : list R) :
  StronglySorted Rle l -> StronglySorted Rle l' -> Permutation l l' -> l = l'.
Proof.
  intros Hl. revert l'. induction Hl as [|x l Hs IH Hx]; intros l' Hl' Hp.
  - now apply Permutation_nil in Hp.
  - destruct Hl' as [|y l' Hs' Hy].
    { apply Permutation_sym, Permutation_nil in Hp. discriminate. }
    assert (Hxy : x = y).
    { assert (Hin1 : In x (y :: l'))
        by (apply (Permutation_in _ Hp); now left).
      assert (Hin2 : In y (x :: l))
        by (apply (Permutation_in _ (Permutation_sym Hp)); now left).
      rewrite Forall_forall in Hx, Hy.
      destruct Hin1 as [E|Hin1]; [now symmetry|].
      destruct Hin2 as [E|Hin2]; [exact E|].
      apply Rle_antisym; [now apply Hx | now apply Hy]. }
    subst y. f_equal. apply IH; [exact Hs'|].
    now apply Permutation_cons_inv in Hp.
Qed.

Lemma Rsort_perm_invariant (l l' : list R) :
  Permutation l l' -> Rsort l = Rsort l'.
Proof.
  intros Hp. apply sorted_perm_eq; try apply Rsort_sorted.
  rewrite <- (Rsort_perm l), <- (Rsort_perm l'). exact Hp.
Qed.

Lemma sorted_nth_le (l : list R) :
  StronglySorted Rle l ->
  forall i j, (i <= j < length l)%nat -> nth i l 0 <= nth j l 0.
Proof.
  induction 1 as [|x l Hs IH Hx]; intros i j Hij; [simpl in Hij; lia|].
  destruct i as [|i], j as [|j]; simpl; try lra; try lia.
  - rewrite Forall_forall in Hx. apply Hx, nth_In. simpl in Hij. lia.
  - apply IH. simpl in Hij. lia.
Qed.


End Sorting.

(** ** [min], [max] and [range] *)

Section Extremes.

Import jstat.

Lemma min2_NaN_r (x : num) : Math.min2 x NaN = NaN.
Proof. now destruct x. Qed.

Lemma max2_NaN_r (x : num) : Math.max2 x NaN = NaN.
Proof. now destruct x. Qed.

Lemma fold_min2_NaN (l : list num) : fold_left Math.min2 l NaN = NaN.
Proof. induction l as [|x l IH]; [reflexivity|]. simpl. exact IH. Qed.

Lemma fold_max2_NaN (l : list num) : fold_left Math.max2 l NaN = NaN.
Proof. induction l as [|x l IH]; [reflexivity|]. simpl. exact IH. Qed.

Lemma fold_min2_poisoned (l : list num) :
  In NaN l -> forall acc, fold_left Math.min2 l acc = NaN.
Proof.
  induction l as [|x l IH]; intros Hin acc; [destruct Hin|]. simpl.
  destruct Hin as [->|Hin]; [|now apply IH].
  rewrite min2_NaN_r. apply fold_min2_NaN.
Qed.

Lemma fold_max2_poisoned (l : list num) :
  In NaN l -> forall acc, fold_left Math.max2 l acc = NaN.
Proof.
  induction l as [|x l IH]; intros Hin acc; [destruct Hin|]. simpl.
  destruct Hin as [->|Hin]; [|now apply IH].
  rewrite max2_NaN_r. apply fold_max2_NaN.
Qed.

Lemma fold_min2_fin (rs : list R) :
  forall a : R,
    exists m : R,
      fold_left Math.min2 (map Fin rs) (Fin a) = Fin m /\
      (m = a \/ In m rs) /\ m <= a /\ (forall r, In r rs -> m <= r).
Proof.
  induction rs as [|x rs IH]; intros a.
  - exists a. simpl. repeat split; auto; try lra. intros r [].
  - simpl fold_left.
    change (Math.min2 (Fin a) (Fin x))
      with (if Rltb x a then Fin x else Fin a).
    destruct (Rlt_dec x a) as [H|H].
    + rewrite Rltb_true by assumption.
      destruct (IH x) as (m & Hm & Hin & Hle & Hall).
      exists m. split; [exact Hm|].
      split; [right; destruct Hin as [->|Hin]; simpl; auto|].
      split; [lra|]. intros r [<-|Hr]; [exact Hle | now apply Hall].
    + rewrite Rltb_false by lra.
      destruct (IH a) as (m & Hm & Hin & Hle & Hall).
      exists m. split; [exact Hm|].
      split; [destruct Hin as [->|Hin]; simpl; auto|].
      split; [exact Hle|]. intros r [<-|Hr]; [lra | now apply Hall].
Qed.

Lemma fold_max2_fin (rs : list R) :
  forall a : R,
    exists m : R,
      fold_left Math.max2 (map Fin rs) (Fin a) = Fin m /\
      (m = a \/ In m rs) /\ a <= m /\ (forall r, In r rs -> r <= m).
Proof.
  induction rs as [|x rs IH]; intros a.
  - exists a. simpl. repeat split; auto; try lra. intros r [].
  - simpl fold_left.
    change (Math.max2 (Fin a) (Fin x))
      with (if Rltb a x then Fin x else Fin a).
    destruct (Rlt_dec a x) as [H|H].
    + rewrite Rltb_true by assumption.
      destruct (IH x) as (m & Hm & Hin & Hle & Hall).
      exists m. split; [exact Hm|].
      split; [right; destruct Hin as [->|Hin]; simpl; auto|].
      split; [lra|]. intros r [<-|Hr]; [exact Hle | now apply Hall].
    + rewrite Rltb_false by lra.
      destruct (IH a) as (m & Hm & Hin & Hle & Hall).
      exists m. split; [exact Hm|].
      split; [destruct Hin as [->|Hin]; simpl; auto|].
      split; [exact Hle|]. intros r [<-|Hr]; [lra | now apply Hall].
Qed.

Lemma range_fin (rs : list R) :
  rs <> [] ->
  range (map Fin rs)
  = Fin (nth (length rs - 1) (Rsort rs) 0 - nth 0 (Rsort rs) 0).
Proof.
  intros Hne. assert (Hlen : (1 <= length rs)%nat).
  { destruct rs; [congruence|]. simpl. lia. }
  unfold range. rewrite sort_fin, length_map, Rsort_length.
  replace (num_sub (Fin (INR (length rs))) (Fin 1))
    with (Fin (INR (length rs - 1)))
    by (simpl; f_equal; rewrite minus_INR by lia; simpl; lra).
  change (Fin 0) with (Fin (INR 0)).
  rewrite !get_index, !get_nat_fin by (rewrite Rsort_length; lia).
  reflexivity.
Qed.

(** X23.  [min] and [max] of the empty array are [+Infinity] and
    [-Infinity], and its [range] is not-a-number; a not-a-number element
    makes [min] and [max] not-a-number.  On a non-empty array of finite
    numbers [min] and [max] are elements that bound every element, and
    [range] is their difference. *)
Theorem extremes_and_range :
  min [] = PInf /\ max [] = NInf /\ range [] = NaN /\
  (forall arr : list num, In NaN arr -> min arr = NaN /\ max arr = NaN) /\
  (forall rs : list R, rs <> [] ->
     exists lo hi : R,
       In lo rs /\ In hi rs /\ (forall r, In r rs -> lo <= r <= hi) /\
       min (map Fin rs) = Fin lo /\ max (map Fin rs) = Fin hi /\
       range (map Fin rs) = Fin (hi - lo)).
Proof.
  split; [reflexivity|]. split; [reflexivity|]. split; [|split].
  - unfold range. change (sort arrSortF []) with (@nil num).
    change (num_sub (Fin (INR (length (@nil num)))) (Fin 1))
      with (Fin (0 + - 1)).
    rewrite get_negative by lra. reflexivity.
  - intros arr Hin. split.
    + now apply fold_min2_poisoned.
    + now apply fold_max2_poisoned.
  - intros rs Hne. destruct rs as [|x rs]; [congruence|].
    destruct (fold_min2_fin rs x) as (lo & Hlo & Hlin & Hlx & Hlall).
    destruct (fold_max2_fin rs x) as (hi & Hhi & Hhin & Hhx & Hhall).
    assert (Hbound : forall r, In r (x :: rs) -> lo <= r <= hi).
    { intros r [<-|Hr]; [lra|]. split; [now apply Hlall | now apply Hhall]. }
    assert (HloIn : In lo (x :: rs))
      by (destruct Hlin as [->|Hlin]; simpl; auto).
    assert (HhiIn : In hi (x :: rs))
      by (destruct Hhin as [->|Hhin]; simpl; auto).
    exists lo, hi. split; [exact HloIn|]. split; [exact HhiIn|].
    split; [exact Hbound|]. split; [exact Hlo|]. split; [exact Hhi|].
    rewrite range_fin by discriminate.
    set (s := Rsort (x :: rs)).
    assert (Hs : StronglySorted Rle s) by apply Rsort_sorted.
    assert (Hsl : length s = S (length rs)) by apply Rsort_length.
    assert (Hin_s : forall r, In r s <-> In r (x :: rs)).
    { intros r. split; apply Permutation_in;
        [apply Permutation_sym|]; apply Rsort_perm. }
    assert (Hfirst : forall r, In r (x :: rs) -> nth 0 s 0 <= r).
    { intros r Hr. apply Hin_s, (In_nth _ _ 0) in Hr as (i & Hi & <-).
      apply sorted_nth_le; [exact Hs | lia]. }
    assert (Hlast : forall r, In r (x :: rs) ->
              r <= nth (length (x :: rs) - 1) s 0).
    { intros r Hr. apply Hin_s, (In_nth _ _ 0) in Hr as (i & Hi & <-).
      apply sorted_nth_le; [exact Hs | simpl; lia]. }
    assert (H0in : In (nth 0 s 0) (x :: rs))
      by (apply Hin_s, nth_In; lia).
    assert (Hnin : In (nth (length (x :: rs) - 1) s 0) (x :: rs))
      by (apply Hin_s, nth_In; simpl; lia).
    assert (Elo : nth 0 s 0 = lo).
    { apply Rle_antisym; [now apply Hfirst | now apply Hbound]. }
    assert (Ehi : nth (length (x :: rs) - 1) s 0 = hi).
    { apply Rle_antisym; [now apply Hbound | now apply Hlast]. }
    now rewrite Elo, Ehi.
Qed.

Lemma extremes_and_range_witness :
  exists lo hi : R,
    In lo [3; 1; 2] /\ In hi [3; 1; 2] /\
    (forall r, In r [3; 1; 2] -> lo <= r <= hi) /\
    min (map Fin [3; 1; 2]) = Fin lo /\ max (map Fin [3; 1; 2]) = Fin hi /\
    range (map Fin [3; 1; 2]) = Fin (hi - lo).
Proof.
  destruct extremes_and_range as (_ & _ & _ & _ & H).
  apply (H [3; 1; 2]). discriminate.
Defined.

End Extremes.

(** ** [median] *)

Section Median.

Import jstat.





End Median.

(** ** [variance], [stdev], [covariance] and [corrcoeff] *)

Section Dispersion.

Import jstat.

Lemma Math_pow_2 (d : R) : Math.pow (Fin d) (Fin 2) = Fin (d ^ 2).
Proof.
  replace (Fin 2) with (Fin (INR 2)) by (now rewrite INR_2).
  apply Math_pow_nat.
Qed.

Lemma Rsum_nonneg (l : list R) : (forall r, In r l -> 0 <= r) -> 0 <= Rsum l.
Proof.
  induction l as [|x l IH]; intros H; unfold Rsum in *; simpl; [lra|].
  pose proof (H x (or_introl eq_refl)).
  assert (0 <= fold_right Rplus 0 l) by (apply IH; intros; apply H; now right).
  lra.
Qed.


Lemma mean_fin (rs : list R) :
  (1 <= length rs)%nat ->
  mean (map Fin rs) = Fin (Rsum rs / INR (length rs)).
Proof.
  intros Hlen. unfold mean. rewrite sum_fin, length_map.
  apply num_div_fin. apply lt_0_INR in Hlen. lra.
Qed.

(** The sum of squared deviations from the mean. *)
Lemma squares_nonneg (rs : list R) (mu : R) :
  0 <= Rsum (map (fun r => (r - mu) ^ 2) rs).
Proof.
  apply Rsum_nonneg. intros r Hr. apply in_map_iff in Hr as (x & <- & _).
  apply pow2_ge_0.
Qed.

Lemma squares_accumulated (rs : list R) (mu : R) :
  accumulate_down
    (fun i => Math.pow (num_sub (to_number (get_nat (map Fin rs) i)) (Fin mu))
                (Fin 2))
    (length rs) (Fin 0)
  = Fin (Rsum (map (fun r => (r - mu) ^ 2) rs)).
Proof.
  apply (accumulate_elements
           (fun x => Math.pow (num_sub x (Fin mu)) (Fin 2))
           (fun r => (r - mu) ^ 2)).
  intros r. apply Math_pow_2.
Qed.

Lemma variance_fin (rs : list R) :
  (2 <= length rs)%nat ->
  variance (map Fin rs)
  = Fin (Rsum (map (fun r => (r - Rsum rs / INR (length rs)) ^ 2) rs)
         / (INR (length rs) - 1)).
Proof.
  intros Hlen. unfold variance. rewrite mean_fin by lia.
  rewrite length_map, squares_accumulated.
  apply le_INR in Hlen. simpl in Hlen.
  simpl num_sub. apply num_div_fin. lra.
Qed.




(** X25.  [variance] divides the sum of squared deviations from the mean
    by [n - 1]: on [n >= 2] finite numbers it is a non-negative number and
    [stdev] is its square root; on a single element both are
    not-a-number, and on the empty array [variance] is zero. *)
Theorem variance_and_stdev :
  (exists z : R, variance [] = Fin z /\ z = 0) /\
  (forall r : R, variance [Fin r] = NaN /\ stdev [Fin r] = NaN) /\
  (forall rs : list R, (2 <= length rs)%nat ->
     exists v : R,
       variance (map Fin rs) = Fin v /\
       v = Rsum (map (fun r => (r - Rsum rs / INR (length rs)) ^ 2) rs)
           / (INR (length rs) - 1) /\
       0 <= v /\
       stdev (map Fin rs) = Fin (sqrt v) /\
       sqrt v * sqrt v = v).
Proof.
  split; [|split].
  - exists (0 / (0 + - 1)). split; [|lra].
    unfold variance. simpl. now rewrite Reqb_false by lra.
  - intros r.
    assert (Hv : variance [Fin r] = NaN).
    { change [Fin r] with (map Fin [r]).
      unfold variance. rewrite (mean_fin [r]) by (simpl; lia).
      rewrite length_map.
      rewrite squares_accumulated.
      change (num_sub (Fin (INR (length [r]))) (Fin 1)) with (Fin (1 + - 1)).
      unfold num_div, inf_times. rewrite Reqb_true by lra.
      rewrite Reqb_true; [reflexivity|].
      unfold Rsum. simpl. field. }
    split; [exact Hv|]. unfold stdev. now rewrite Hv.
  - intros rs Hlen.
    set (S := Rsum (map (fun r => (r - Rsum rs / INR (length rs)) ^ 2) rs)).
    assert (HS : 0 <= S) by apply squares_nonneg.
    assert (Hn : 0 < INR (length rs) - 1).
    { apply le_INR in Hlen. simpl in Hlen. lra. }
    assert (Hv : 0 <= S / (INR (length rs) - 1)).
    { apply Rmult_le_pos; [exact HS|]. left. now apply Rinv_0_lt_compat. }
    exists (S / (INR (length rs) - 1)).
    split; [now apply variance_fin|]. split; [reflexivity|].
    split; [exact Hv|]. split.
    + unfold stdev. rewrite variance_fin by assumption. fold S.
      simpl. now rewrite Rltb_false.
    + now apply sqrt_sqrt.
Qed.

Lemma variance_and_stdev_witness :
  exists v : R,
    variance (map Fin [1; 3]) = Fin v /\
    v = Rsum (map (fun r => (r - Rsum [1; 3] / INR (length [1; 3])) ^ 2) [1; 3])
        / (INR (length [1; 3]) - 1) /\
    0 <= v /\
    stdev (map Fin [1; 3]) = Fin (sqrt v) /\
    sqrt v * sqrt v = v.
Proof.
  destruct variance_and_stdev as (_ & _ & H). apply (H [1; 3]). simpl. lia.
Defined.



End Dispersion.

(** ** [quartiles] *)

Section Quartiles.

Import jstat.

Lemma Int_part_mono (x y : R) : x <= y -> (Int_part x <= Int_part y)%Z.
Proof.
  intros Hxy. destruct (base_Int_part x), (base_Int_part y).
  apply Z.lt_succ_r, lt_IZR. rewrite succ_IZR. lra.
Qed.

Lemma get_round_pred (l : list num) (x : R) (i : nat) :
  Int_part (x + 0.5) = Z.of_nat (S i) ->
  get l (num_sub (Math.round (Fin x)) (Fin 1)) = get_nat l i.
Proof.
  intros H. unfold Math.round. rewrite H, <- INR_IZR_INZ, S_INR.
  replace (num_sub (Fin (INR i + 1)) (Fin 1)) with (Fin (INR i))
    by (simpl; f_equal; lra).
  apply get_index.
Qed.

Lemma get_round_zero (l : list num) (x : R) :
  0 <= x < 0.5 -> get l (num_sub (Math.round (Fin x)) (Fin 1)) = VUndef.
Proof.
  intros Hx. unfold Math.round.
  replace (Int_part (x + 0.5)) with 0%Z
    by (apply Int_part_spec; simpl; lra).
  simpl num_sub. apply get_negative. lra.
Qed.

Lemma quartiles_unfold (rs : list R) :
  quartiles (map Fin rs)
  = [get (map Fin (Rsort rs))
       (num_sub (Math.round (Fin (INR (length rs) / 4))) (Fin 1));
     get (map Fin (Rsort rs))
       (num_sub (Math.round (Fin (INR (length rs) / 2))) (Fin 1));
     get (map Fin (Rsort rs))
       (num_sub (Math.round (Fin (INR (length rs) * 3 / 4))) (Fin 1))].
Proof.
  unfold quartiles. rewrite length_map, sort_fin.
  change (num_mul (Fin (INR (length rs))) (Fin 3))
    with (Fin (INR (length rs) * 3)).
  now rewrite !num_div_fin by lra.
Qed.

(** X27.  On two or more finite numbers [quartiles] returns three elements
    of the array in non-decreasing order, whatever the order of the
    input; on a single element the first quartile is [undefined], and on
    the empty array all three are. *)
Theorem quartiles_properties :
  quartiles [] = [VUndef; VUndef; VUndef] /\
  (forall r : R, quartiles [Fin r] = [VUndef; VNum (Fin r); VNum (Fin r)]) /\
  (forall rs : list R, (2 <= length rs)%nat ->
     exists q1 q2 q3 : R,
       quartiles (map Fin rs) = [VNum (Fin q1); VNum (Fin q2); VNum (Fin q3)] /\
       In q1 rs /\ In q2 rs /\ In q3 rs /\ q1 <= q2 <= q3 /\
       (forall rs' : list R, Permutation rs rs' ->
          quartiles (map Fin rs') = quartiles (map Fin rs))).
Proof.
  split; [|split].
  - change (@nil num) with (map Fin []).
    rewrite (quartiles_unfold []). change (INR (length (@nil R))) with 0.
    rewrite !get_round_zero by lra. reflexivity.
  - intros r. change [Fin r] with (map Fin [r]).
    rewrite (quartiles_unfold [r]).
    change (INR (length [r])) with 1. change (Rsort [r]) with [r].
    rewrite get_round_zero by lra.
    rewrite !(get_round_pred _ _ 0)
      by (symmetry; apply Int_part_spec; simpl; lra).
    reflexivity.
  - intros rs Hlen. rewrite quartiles_unfold.
    set (n := INR (length rs)).
    assert (Hn : 2 <= n) by (apply le_INR in Hlen; simpl in Hlen; exact Hlen).
    set (z1 := Int_part (n / 4 + 0.5)).
    set (z2 := Int_part (n / 2 + 0.5)).
    set (z3 := Int_part (n * 3 / 4 + 0.5)).
    assert (H1 : (1 <= z1)%Z).
    { replace 1%Z with (Int_part 1)
        by (symmetry; apply Int_part_spec; simpl; lra).
      apply Int_part_mono. lra. }
    assert (H12 : (z1 <= z2)%Z) by (apply Int_part_mono; lra).
    assert (H23 : (z2 <= z3)%Z) by (apply Int_part_mono; lra).
    assert (H3 : (z3 <= Z.of_nat (length rs))%Z).
    { destruct (base_Int_part (n * 3 / 4 + 0.5)) as [Hb _]. fold z3 in Hb.
      apply Z.lt_succ_r, lt_IZR. rewrite succ_IZR, <- INR_IZR_INZ.
      fold n. lra. }
    assert (Hget : forall x z, Int_part (x + 0.5) = z ->
              (1 <= z <= Z.of_nat (length rs))%Z ->
              get (map Fin (Rsort rs)) (num_sub (Math.round (Fin x)) (Fin 1))
              = VNum (Fin (nth (Z.to_nat (z - 1)) (Rsort rs) 0))).
    { intros x z Hz Hr.
      rewrite (get_round_pred _ _ (Z.to_nat (z - 1))) by (rewrite Hz; lia).
      apply get_nat_fin. rewrite Rsort_length. lia. }
    assert (Hin : forall z, (1 <= z <= Z.of_nat (length rs))%Z ->
              In (nth (Z.to_nat (z - 1)) (Rsort rs) 0) rs).
    { intros z Hr.
      apply (Permutation_in _ (Permutation_sym (Rsort_perm rs))).
      apply nth_In. rewrite Rsort_length. lia. }
    assert (Hle : forall z z', (1 <= z)%Z -> (z <= z')%Z ->
              (z' <= Z.of_nat (length rs))%Z ->
              nth (Z.to_nat (z - 1)) (Rsort rs) 0
              <= nth (Z.to_nat (z' - 1)) (Rsort rs) 0).
    { intros z z' Ha Hb Hc. apply sorted_nth_le; [apply Rsort_sorted|].
      rewrite Rsort_length. lia. }
    exists (nth (Z.to_nat (z1 - 1)) (Rsort rs) 0),
           (nth (Z.to_nat (z2 - 1)) (Rsort rs) 0),
           (nth (Z.to_nat (z3 - 1)) (Rsort rs) 0).
    split.
    { rewrite (Hget (n / 4) z1), (Hget (n / 2) z2), (Hget (n * 3 / 4) z3)
        by (try reflexivity; lia).
      reflexivity. }
    split; [apply Hin; lia|]. split; [apply Hin; lia|].
    split; [apply Hin; lia|].
    split; [split; apply Hle; lia|].
    intros rs' Hp. rewrite (quartiles_unfold rs').
    now rewrite <- (Permutation_length Hp), <- (Rsort_perm_invariant rs rs' Hp).
Qed.

Lemma quartiles_properties_witness :
  exists q1 q2 q3 : R,
    quartiles (map Fin [4; 2; 3; 1])
    = [VNum (Fin q1); VNum (Fin q2); VNum (Fin q3)] /\
    In q1 [4; 2; 3; 1] /\ In q2 [4; 2; 3; 1] /\ In q3 [4; 2; 3; 1] /\
    q1 <= q2 <= q3 /\
    (forall rs' : list R, Permutation [4; 2; 3; 1] rs' ->
       quartiles (map Fin rs') = quartiles (map Fin [4; 2; 3; 1])).
Proof.
  destruct quartiles_properties as (_ & _ & H).
  apply (H [4; 2; 3; 1]). simpl. lia.
Defined.

End Quartiles.

(** ** [mode] *)

Section Mode.

Import jstat.

Lemma mode_fin (rs : list R) :
  mode (map Fin rs)
  = (let st := mode_loop (map Fin (Rsort rs)) (length rs) 0
                 {| count := 1; maxCount := 0; numMaxCount := 0;
                    maxNum := VUndef |} in
     if (numMaxCount st =? 0)%nat then maxNum st else VBool false).
Proof. unfold mode. now rewrite length_map, sort_fin. Qed.

Lemma mode_loop_app (l : list num) (a : nat) :
  forall (b i : nat) (st : mode_state),
    mode_loop l (a + b) i st = mode_loop l b (i + a) (mode_loop l a i st).
Proof.
  induction a as [|a IH]; intros b i st; simpl.
  - now replace (i + 0)%nat with i by lia.
  - rewrite IH. now replace (S i + a)%nat with (i + S a)%nat by lia.
Qed.

(** A run of comparisons that all succeed only counts. *)
Lemma mode_loop_equal_run (l : list num) (m : nat) :
  forall (i : nat) (st : mode_state),
    (forall j, (i <= j < i + m)%nat ->
               strict_eq (get_nat l j) (get_nat l (S j)) = true) ->
    mode_loop l m i st
    = {| count := count st + m; maxCount := maxCount st;
         numMaxCount := numMaxCount st; maxNum := maxNum st |}.
Proof.
  induction m as [|m IH]; intros i st H.
  - destruct st; simpl. f_equal. lia.
  - simpl mode_loop. rewrite IH by (intros j Hj; apply H; lia).
    unfold mode_step. rewrite H by lia. simpl. f_equal. lia.
Qed.

Lemma mode_loop_block (l : list num) (m i rest : nat) (st : mode_state) :
  (forall j, (i <= j < i + m)%nat ->
             strict_eq (get_nat l j) (get_nat l (S j)) = true) ->
  mode_loop l (m + (1 + rest)) i st
  = mode_loop l rest (i + m + 1)
      (mode_step l (i + m)
         {| count := count st + m; maxCount := maxCount st;
            numMaxCount := numMaxCount st; maxNum := maxNum st |}).
Proof.
  intros H. rewrite mode_loop_app, (mode_loop_equal_run l m i st H).
  change (1 + rest)%nat with (S rest). cbn [mode_loop].
  now replace (S (i + m)) with (i + m + 1)%nat by lia.
Qed.

Lemma mode_step_new (l : list num) (i : nat) (st : mode_state) :
  strict_eq (get_nat l i) (get_nat l (S i)) = false ->
  (maxCount st < count st)%nat ->
  mode_step l i st
  = {| count := 1; maxCount := count st; numMaxCount := 0;
       maxNum := get_nat l i |}.
Proof.
  intros He Hc. unfold mode_step. rewrite He.
  now rewrite (proj2 (Nat.ltb_lt _ _) Hc).
Qed.

Lemma mode_step_tie (l : list num) (i : nat) (st : mode_state) :
  strict_eq (get_nat l i) (get_nat l (S i)) = false ->
  count st = maxCount st ->
  mode_step l i st
  = {| count := count st; maxCount := maxCount st;
       numMaxCount := S (numMaxCount st); maxNum := maxNum st |}.
Proof.
  intros He Hc. unfold mode_step. rewrite He.
  rewrite (proj2 (Nat.ltb_ge _ _)) by lia.
  now rewrite (proj2 (Nat.eqb_eq _ _) Hc).
Qed.

(** Once one element has been recorded with count one, distinct
    neighbours only add ties. *)
Lemma mode_loop_distinct (l : list num) (m : nat) :
  forall (i : nat) (st : mode_state),
    (forall j, (i <= j < i + m)%nat ->
               strict_eq (get_nat l j) (get_nat l (S j)) = false) ->
    count st = 1%nat -> maxCount st = 1%nat ->
    numMaxCount (mode_loop l m i st) = (numMaxCount st + m)%nat.
Proof.
  induction m as [|m IH]; intros i st H Hc Hm; simpl; [lia|].
  rewrite mode_step_tie by (try apply H; lia).
  rewrite IH; simpl; try lia.
  intros j Hj. apply H. lia.
Qed.

Lemma get_nat_some (rs : list R) (i : nat) (x : R) :
  nth_error rs i = Some x -> get_nat (map Fin rs) i = VNum (Fin x).
Proof. intros H. unfold get_nat. now rewrite nth_error_map, H. Qed.

Lemma Rsort_of_sorted (rs s : list R) :
  StronglySorted Rle s -> Permutation rs s -> Rsort rs = s.
Proof.
  intros Hs Hp. apply sorted_perm_eq; [apply Rsort_sorted | exact Hs |].
  now rewrite <- (Rsort_perm rs).
Qed.

Lemma sorted_repeat (x : R) (n : nat) : StronglySorted Rle (repeat x n).
Proof.
  induction n as [|n IH]; simpl; constructor; [exact IH|].
  apply Forall_forall. intros y Hy. apply repeat_spec in Hy. lra.
Qed.

Lemma sorted_app (l1 l2 : list R) :
  StronglySorted Rle l1 -> StronglySorted Rle l2 ->
  (forall x y, In x l1 -> In y l2 -> x <= y) ->
  StronglySorted Rle (l1 ++ l2).
Proof.
  induction 1 as [|x l Hs IH Hx]; intros H2 H; simpl; [exact H2|].
  constructor.
  - apply IH; [exact H2|]. intros u v Hu Hv. apply H; [now right | exact Hv].
  - apply Forall_app. split; [exact Hx|].
    apply Forall_forall. intros y Hy. apply H; [now left | exact Hy].
Qed.

Lemma sorted_nodup_neighbours (s : list R) (i : nat) :
  NoDup s -> (S i < length s)%nat -> nth i s 0 <> nth (S i) s 0.
Proof.
  intros Hnd Hi He.
  assert (i = S i) by (apply (proj1 (NoDup_nth s 0) Hnd); [lia | lia | exact He]).
  lia.
Qed.

(** Three runs [a..a b..b c..c] with [a < b < c]. *)
Lemma three_runs_sorted (a b c : R) (k j : nat) :
  a < b < c ->
  StronglySorted Rle (repeat a k ++ repeat b k ++ repeat c j).
Proof.
  intros Habc. apply sorted_app; [apply sorted_repeat| |].
  - apply sorted_app; try apply sorted_repeat.
    intros x y Hx Hy. apply repeat_spec in Hx, Hy. lra.
  - intros x y Hx Hy. apply repeat_spec in Hx.
    apply in_app_or in Hy as [Hy|Hy]; apply repeat_spec in Hy; lra.
Qed.

Lemma three_runs_get (a b c : R) (k j i : nat) :
  get_nat (map Fin (repeat a k ++ repeat b k ++ repeat c j)) i
  = if (i <? k)%nat then VNum (Fin a)
    else if (i <? 2 * k)%nat then VNum (Fin b)
    else if (i <? 2 * k + j)%nat then VNum (Fin c)
    else VUndef.
Proof.
  destruct (Nat.ltb_spec i k) as [H1|H1].
  { apply get_nat_some. rewrite nth_error_app1 by (rewrite repeat_length; lia).
    apply nth_error_repeat. lia. }
  destruct (Nat.ltb_spec i (2 * k)) as [H2|H2].
  { apply get_nat_some.
    rewrite nth_error_app2, repeat_length by (rewrite repeat_length; lia).
    rewrite nth_error_app1 by (rewrite repeat_length; lia).
    apply nth_error_repeat. lia. }
  destruct (Nat.ltb_spec i (2 * k + j)) as [H3|H3].
  { apply get_nat_some.
    rewrite nth_error_app2, repeat_length by (rewrite repeat_length; lia).
    rewrite nth_error_app2, repeat_length by (rewrite repeat_length; lia).
    apply nth_error_repeat. lia. }
  apply get_nat_out. rewrite length_map, !length_app, !repeat_length. lia.
Qed.

(** X28.  [mode] of the empty array is [undefined]; of [n >= 1] copies of
    one number it is that number; and of two or more pairwise different
    numbers it is [false]. *)
Theorem mode_simple_cases :
  mode [] = VUndef /\
  (forall (r : R) (n : nat), (1 <= n)%nat ->
     mode (map Fin (repeat r n)) = VNum (Fin r)) /\
  (forall rs : list R, NoDup rs -> (2 <= length rs)%nat ->
     mode (map Fin rs) = VBool false).
Proof.
  split; [reflexivity|]. split.
  - intros r n Hn. rewrite mode_fin, repeat_length.
    rewrite (Rsort_of_sorted (repeat r n) (repeat r n))
      by (try apply sorted_repeat; reflexivity).
    assert (Hget : forall i, (i < n)%nat ->
              get_nat (map Fin (repeat r n)) i = VNum (Fin r)).
    { intros i Hi. apply get_nat_some, nth_error_repeat. exact Hi. }
    set (l := map Fin (repeat r n)) in *.
    replace (mode_loop l n) with (mode_loop l ((n - 1) + 1))
      by (f_equal; lia).
    rewrite mode_loop_app, (mode_loop_equal_run l (n - 1)).
    2:{ intros j Hj. rewrite !Hget by lia. simpl. now apply Reqb_true. }
    simpl mode_loop. rewrite mode_step_new; simpl.
    + apply Hget. lia.
    + rewrite Hget by lia. unfold l.
      rewrite get_nat_out by (rewrite length_map, repeat_length; lia).
      reflexivity.
    + lia.
  - intros rs Hnd Hlen. rewrite mode_fin.
    set (l := map Fin (Rsort rs)).
    assert (Hnd' : NoDup (Rsort rs))
      by (apply (Permutation_NoDup (Rsort_perm rs)), Hnd).
    assert (Hne : forall i, (i < length rs)%nat ->
              strict_eq (get_nat l i) (get_nat l (S i)) = false).
    { intros i Hi. unfold l. rewrite get_nat_fin by (rewrite Rsort_length; lia).
      destruct (Nat.lt_ge_cases (S i) (length rs)) as [Hlt|Hge].
      - rewrite get_nat_fin by (rewrite Rsort_length; lia). simpl.
        apply Reqb_false, sorted_nodup_neighbours; [exact Hnd'|].
        rewrite Rsort_length. exact Hlt.
      - rewrite get_nat_out
          by (rewrite length_map, Rsort_length; lia).
        reflexivity. }
    replace (length rs) with (1 + (length rs - 1))%nat by lia.
    rewrite mode_loop_app. simpl mode_loop at 2.
    rewrite mode_step_new by (try apply Hne; simpl; lia).
    cbv zeta. rewrite mode_loop_distinct; try reflexivity.
    + simpl. destruct (length rs - 1)%nat eqn:E; [lia | reflexivity].
    + intros j Hj. apply Hne. lia.
Qed.

Lemma mode_simple_cases_witness :
  mode (map Fin (repeat 7 3)) = VNum (Fin 7) /\
  mode (map Fin [3; 1; 2]) = VBool false.
Proof.
  destruct mode_simple_cases as (_ & Hc & Hd). split.
  - apply Hc. lia.
  - apply Hd; [|simpl; lia].
    repeat constructor; simpl; intros H;
      repeat (destruct H as [H|H]; [lra|]); exact H.
Defined.

(** X29.  [mode] does not reset its counter after a tie: on [k] copies
    of [a], [k] copies of [b] and [j >= 2] copies of [c] with
    [a < b < c], in any order, it returns [c], also when [j < k] and [c]
    is the least frequent element. *)
Theorem mode_counts_on_after_a_tie (a b c : R) (k j : nat) (rs : list R) :
  a < b < c -> (1 <= k)%nat -> (2 <= j)%nat ->
  Permutation rs (repeat a k ++ repeat b k ++ repeat c j) ->
  mode (map Fin rs) = VNum (Fin c).
Proof.
  intros Habc Hk Hj Hp. rewrite mode_fin.
  rewrite (Rsort_of_sorted rs _ (three_runs_sorted a b c k j Habc) Hp).
  rewrite (Permutation_length Hp), !length_app, !repeat_length.
  set (l := map Fin (repeat a k ++ repeat b k ++ repeat c j)).
  assert (Hget := three_runs_get a b c k j). fold l in Hget.
  assert (Hlt : forall i n, (i < n)%nat -> (i <? n)%nat = true)
    by (intros; now apply Nat.ltb_lt).
  assert (Hge : forall i n, (n <= i)%nat -> (i <? n)%nat = false)
    by (intros; now apply Nat.ltb_ge).
  assert (Ha : forall i, (i < k)%nat -> get_nat l i = VNum (Fin a))
    by (intros i Hi; now rewrite Hget, Hlt).
  assert (Hb : forall i, (k <= i < 2 * k)%nat -> get_nat l i = VNum (Fin b))
    by (intros i Hi; rewrite Hget, Hge, Hlt by lia; reflexivity).
  assert (Hc : forall i, (2 * k <= i < 2 * k + j)%nat ->
             get_nat l i = VNum (Fin c))
    by (intros i Hi; rewrite Hget, !Hge, Hlt by lia; reflexivity).
  assert (Hu : get_nat l (2 * k + j) = VUndef)
    by (rewrite Hget, !Hge by lia; reflexivity).
  replace (k + (k + j))%nat
    with ((k - 1) + (1 + ((k - 1) + (1 + ((j - 1) + (1 + 0))))))%nat by lia.
  (* the run of a *)
  rewrite mode_loop_block.
  2:{ intros i Hi. rewrite !Ha by lia. simpl. now apply Reqb_true. }
  rewrite mode_step_new.
  2:{ rewrite Ha by lia.
      match goal with
      | |- context [get_nat l (S ?e)] => replace (S e) with k by lia
      end.
      rewrite Hb by lia. simpl. apply Reqb_false. lra. }
  2:{ simpl. lia. }
  (* the run of b *)
  rewrite mode_loop_block.
  2:{ intros i Hi. rewrite !Hb by lia. simpl. now apply Reqb_true. }
  cbn [count maxCount numMaxCount maxNum].
  rewrite mode_step_tie.
  2:{ rewrite Hb by lia.
      match goal with
      | |- context [get_nat l (S ?e)] =>
          replace (S e) with (2 * k)%nat by lia
      end.
      rewrite Hc by lia. simpl. apply Reqb_false. lra. }
  2:{ simpl. lia. }
  cbn [count maxCount numMaxCount maxNum].
  (* the run of c *)
  rewrite mode_loop_block.
  2:{ intros i Hi. rewrite !Hc by lia. simpl. now apply Reqb_true. }
  cbn [count maxCount numMaxCount maxNum].
  rewrite mode_step_new.
  2:{ rewrite Hc by lia.
      match goal with
      | |- context [get_nat l (S ?e)] =>
          replace (S e) with (2 * k + j)%nat by lia
      end.
      rewrite Hu. reflexivity. }
  2:{ simpl. lia. }
  simpl. apply Hc. lia.
Qed.

Lemma mode_counts_on_after_a_tie_witness :
  mode (map Fin [1; 1; 1; 2; 2; 2; 3; 3]) = VNum (Fin 3).
Proof.
  apply (mode_counts_on_after_a_tie 1 2 3 3 2); try lra; try lia.
  reflexivity.
Defined.

End Mode.

(** ** [meandev] and [meddev] *)

Section Deviations.

Import jstat.







End Deviations.
